(** * Authoritative multiplayer hub (server/main.py): model and properties

    The server keeps an in-memory world of players, integrates their inputs at
    a fixed tick, clamps positions to the world rectangle and broadcasts
    snapshots over web sockets.  This file embeds the world model
    ([InputState], [Player], [_clamp], [Player.integrate]) and the [Hub]
    operations, and states the properties of the specification over them.

    Numbers.  Python's [float] is IEEE 754 binary64; it is embedded as Rocq's
    primitive [float], whose operations are specified by [SpecFloat].  The
    integer bounds [WORLD_WIDTH - PLAYER_SIZE] and [WORLD_HEIGHT - PLAYER_SIZE]
    take part in float arithmetic and comparisons only; both are exactly
    representable, so they are embedded as the floats of the same value
    (Python compares an int with a float by value).

    Effects.  A hub operation is a function of the hub and of the events so
    far; it returns a value or raises, and leaves a hub and the events it
    emitted: taking and releasing the lock, reads and writes of the two
    collections, network I/O, clock readings, sleeps.  The transport and the
    clock are an environment that may answer by everything that happened
    before.  The outcomes of the random generator are an argument of
    [connect].  Tasks run one after the other: [gather] runs its tasks in
    the order given, and a sequence of operations runs each to its end. *)

From Stdlib Require Import ZArith Lia Floats Ascii String List Bool Reals Lra.
From stdpp Require Import gmap strings list fin_maps.

Local Open Scope Z_scope.

(** ** World constants *)

Definition TILE_SIZE : Z := 48.
Definition MAP_COLS : Z := 20.
Definition MAP_ROWS : Z := 12.
Definition WORLD_WIDTH : Z := MAP_COLS * TILE_SIZE.
Definition WORLD_HEIGHT : Z := MAP_ROWS * TILE_SIZE.
Definition PLAYER_SIZE : Z := 30.
Definition DEFAULT_PLAYER_SPEED : float := 220%float.

(** Python's conversion of an int to a float, for the small ints of this
    program (all below [2^53], hence exact). *)
Definition float_of_int (z : Z) : float := SF2Prim (binary_normalize prec emax z 0 false).

Definition TICK_RATE : Z := 20.
(** [1000.0 / TICK_RATE] *)
Definition TICK_MS : float := (1000 / float_of_int TICK_RATE)%float.

(** [WORLD_WIDTH - PLAYER_SIZE] and [WORLD_HEIGHT - PLAYER_SIZE] as they enter
    float arithmetic. *)
Definition X_MAX : float := Eval vm_compute in float_of_int (WORLD_WIDTH - PLAYER_SIZE).
Definition Y_MAX : float := Eval vm_compute in float_of_int (WORLD_HEIGHT - PLAYER_SIZE).

(** ** Helpers *)

(** Python's builtin [min(a, b)]: the first argument unless the second is
    strictly smaller; [max(a, b)]: the first unless the second is strictly
    larger.  With a NaN every comparison is false, so the first argument
    wins. *)
Definition py_min (a b : float) : float := if (b <? a)%float then b else a.
Definition py_max (a b : float) : float := if (a <? b)%float then b else a.

(** [def _clamp(v, vmin, vmax): return max(vmin, min(vmax, v))] *)
Definition _clamp (v vmin vmax : float) : float := py_max vmin (py_min vmax v).

(** ** Data model *)

Record InputState := mkInput {
  up : bool;
  down : bool;
  left : bool;
  right : bool
}.

(** [InputState()] *)
Definition InputState_default : InputState := mkInput false false false false.

Record Player := mkPlayer {
  id : string;
  x : float;
  y : float;
  speed : float;
  label : string;
  color : string;
  input : InputState
}.

(** [vx != 0.0]: IEEE inequality (true when [vx] is a NaN). *)
Definition fneq (a b : float) : bool := negb (a =? b)%float.

(** [1.0 / math.sqrt(2.0)] *)
Definition inv_sqrt2 : float := (1 / PrimFloat.sqrt 2)%float.

(** The velocity computed by the first half of [Player.integrate]. *)
Definition axis_velocity (neg pos : bool) (s : float) : float :=
  let v := 0%float in
  let v := if neg then (v - s)%float else v in
  let v := if pos then (v + s)%float else v in
  v.

Definition velocity (p : Player) : float * float :=
  let vx := axis_velocity (left (input p)) (right (input p)) (speed p) in
  let vy := axis_velocity (up (input p)) (down (input p)) (speed p) in
  if fneq vx 0 && fneq vy 0
  then ((vx * inv_sqrt2)%float, (vy * inv_sqrt2)%float)
  else (vx, vy).

(** [Player.integrate(self, dt)]: the player after the in-place update. *)
Definition integrate (p : Player) (dt : float) : Player :=
  let '(vx, vy) := velocity p in
  let nx := (x p + vx * dt)%float in
  let ny := (y p + vy * dt)%float in
  {| id := id p;
     x := _clamp nx 0 X_MAX;
     y := _clamp ny 0 Y_MAX;
     speed := speed p; label := label p; color := color p; input := input p |}.


(** [Player.snapshot(self)]: the public part of a player. *)
Record Snapshot := mkSnapshot {
  snap_id : string;
  snap_x : float;
  snap_y : float;
  snap_label : string;
  snap_color : string
}.

Definition snapshot (p : Player) : Snapshot :=
  {| snap_id := id p; snap_x := x p; snap_y := y p;
     snap_label := label p; snap_color := color p |}.

(** ** Values decoded from a client frame

    [json.loads] yields [None], booleans, numbers, strings, lists and dicts.
    [handle_message] receives a [Dict], here a finite map from keys to such
    values. *)
#[local] Set Warnings "-register-all".
Inductive pyval :=
| PNone
| PBool (b : bool)
| PInt (z : Z)
| PFloat (f : float)
| PStr (s : string)
| PList (l : list pyval)
| PDict (d : list (string * pyval)).

(** [bool(v)]: Python's truth value of a decoded value. *)
Definition truthy (v : pyval) : bool :=
  match v with
  | PNone => false
  | PBool b => b
  | PInt z => negb (z =? 0)
  | PFloat f => fneq f 0
  | PStr s => negb (String.eqb s "")
  | PList l => match l with [] => false | _ => true end
  | PDict d => match d with [] => false | _ => true end
  end.

(** [v != s] for a string [s]: only the string [s] itself is equal to it. *)
Definition py_ne_str (v : pyval) (s : string) : bool :=
  match v with
  | PStr t => negb (String.eqb t s)
  | _ => true
  end.

(** [data.get(key)]: the value, or [None] when the key is absent. *)
Definition dict_get (data : gmap string pyval) (key : string) : pyval :=
  default PNone (data !! key).

(** ** Randomness

    The outcomes of the random generator that one [connect] consumes, in the
    order of the calls: six [random.choice] for the id, two [random.random]
    for the position, one [random.choice] for the colour.  [random.choice(seq)]
    with raw outcome [k] is [seq[k mod len(seq)]]. *)
Record Rand := mkRand {
  id_draw : nat -> nat;
  x_draw : float;
  y_draw : float;
  color_draw : nat
}.

Definition choice {A : Type} (seq : list A) (d : A) (k : nat) : A :=
  nth (k mod length seq) seq d.

(** [string.ascii_letters + string.digits] *)
Definition alphabet : list ascii :=
  list_ascii_of_string
    "abcdefghijklmnopqrstuvwxyzABCDEFGHIJKLMNOPQRSTUVWXYZ0123456789".

(** [_rand_id(n)]: [n] characters drawn from the alphabet. *)
Definition _rand_id (n : nat) (draw : nat -> nat) : string :=
  string_of_list_ascii (map (fun i => choice alphabet "a"%char (draw i)) (seq 0 n)).

Definition palette : list string :=
  ["#2563eb"; "#059669"; "#7c3aed"; "#dc2626"; "#f59e0b"; "#0ea5e9"]%string.

(** [_rand_color()] *)
Definition _rand_color (k : nat) : string := choice palette "#2563eb"%string k.

(** [str.upper()] on the characters an id is made of. *)
Definition upper_ascii (c : ascii) : ascii :=
  let n := nat_of_ascii c in
  if (97 <=? n)%nat && (n <=? 122)%nat then ascii_of_nat (n - 32) else c.

Fixpoint upper (s : string) : string :=
  match s with
  | EmptyString => EmptyString
  | String c r => String (upper_ascii c) (upper r)
  end.

(** The [Player(...)] that [connect] builds. *)
Definition new_player (r : Rand) : Player :=
  let pid := _rand_id 6 (id_draw r) in
  let px := (x_draw r * X_MAX)%float in
  let py := (y_draw r * Y_MAX)%float in
  {| id := pid; x := px; y := py;
     speed := DEFAULT_PLAYER_SPEED;
     label := "P" ++ upper (substring 0 2 pid);
     color := _rand_color (color_draw r);
     input := InputState_default |}.

(** ** The hub *)

(** A connection handle of the transport. *)
Inductive WebSocket := Socket (n : nat).

(** The tick task: created by [start], asked to cancel by [stop]. *)
Inductive Task := TaskRunning | TaskCancelling.

Record Hub := mkHub {
  players : gmap string Player;
  sockets : gmap string WebSocket;
  _tick_task : option Task;
  _last_tick : option float
}.

(** [Hub.__init__] *)
Definition Hub_init : Hub :=
  {| players := ∅; sockets := ∅; _tick_task := None; _last_tick := None |}.

(** What the server sends; [json.dumps] is kept abstract, a frame is its
    content.  Lists built from a dict follow the map's enumeration; the
    insertion order of Python's dict is not modelled. *)
Inductive Msg :=
| MsgState (ps : list Snapshot)
| MsgWelcome (pid : string) (world : list Snapshot)
| MsgJoin (pid : string)
| MsgLeave (pid : string).

(** Exceptions.  [asyncio.CancelledError] derives from [BaseException] only;
    the others derive from [Exception]. *)
Inductive exn :=
| NameError (name : string)
| CancelledError
| WebSocketDisconnect
| OtherException (cls : string).

Definition is_Exception (e : exn) : bool :=
  match e with
  | CancelledError => false
  | _ => true
  end.

Inductive resource := RPlayers | RSockets.

(** Observable steps of an operation, in program order. *)
Inductive event :=
| EvAcquire                          (* entering [async with self.lock] *)
| EvRelease                          (* leaving it *)
| EvRead (r : resource)              (* a read of a world collection *)
| EvWrite (r : resource)             (* a mutation of a world collection *)
| EvAccept (ws : WebSocket)          (* [ws.accept()] *)
| EvSend (ws : WebSocket) (m : Msg)  (* one [ws.send_text(msg)] attempt *)
| EvClock                            (* [time.perf_counter()] *)
| EvSleep (secs : float)             (* [asyncio.sleep(secs)] *)
| EvCancel.                          (* [task.cancel()] *)

Inductive outcome (A : Type) :=
| Ok (a : A)
| Raise (e : exn).
Arguments Ok {A} a.
Arguments Raise {A} e.

Record Result (A : Type) := mkResult {
  res : outcome A;
  hub_of : Hub;
  emitted : list event
}.
Arguments mkResult {A} res hub_of emitted.
Arguments res {A} r.
Arguments hub_of {A} r.
Arguments emitted {A} r.

(** A computation runs on the hub, sees the events so far (the environment
    may answer by them) and returns normally or raises; the hub it leaves and
    the events it emitted are kept in both cases. *)
Definition M (A : Type) : Type := Hub -> list event -> Result A.

Definition ret {A} (a : A) : M A := fun h _ => mkResult (Ok a) h [].

Definition bind {A B} (m : M A) (k : A -> M B) : M B :=
  fun h hist =>
    let r := m h hist in
    match res r with
    | Ok a =>
        let r' := k a (hub_of r) (hist ++ emitted r) in
        mkResult (res r') (hub_of r') (emitted r ++ emitted r')
    | Raise e => mkResult (Raise e) (hub_of r) (emitted r)
    end.

Declare Scope hub_scope.
Delimit Scope hub_scope with hub.
Notation "x <- m ;; k" := (bind m (fun x => k))
  (at level 100, m at next level, right associativity) : hub_scope.
Notation "m ;;; k" := (bind m (fun _ => k))
  (at level 100, right associativity) : hub_scope.
Local Open Scope hub_scope.

Definition raise {A} (e : exn) : M A := fun h _ => mkResult (Raise e) h [].
Definition get : M Hub := fun h _ => mkResult (Ok h) h [].
Definition put (h : Hub) : M unit := fun _ _ => mkResult (Ok tt) h [].
Definition emit (e : event) : M unit := fun h _ => mkResult (Ok tt) h [e].

(** [try: m except <handler>] *)
Definition try_except {A} (m : M A) (handler : exn -> M A) : M A :=
  fun h hist =>
    let r := m h hist in
    match res r with
    | Ok a => r
    | Raise e =>
        let r' := handler e (hub_of r) (hist ++ emitted r) in
        mkResult (res r') (hub_of r') (emitted r ++ emitted r')
    end.

(** [async with self.lock: body]; the lock is released on every exit.  No
    body suspends, so on the single-threaded event loop the lock is always
    free when an operation asks for it. *)
Definition with_lock {A} (body : M A) : M A :=
  fun h hist =>
    let r := body h (hist ++ [EvAcquire]) in
    mkResult (res r) (hub_of r) (EvAcquire :: emitted r ++ [EvRelease]).

Definition set_players (h : Hub) (ps : gmap string Player) : Hub :=
  {| players := ps; sockets := sockets h;
     _tick_task := _tick_task h; _last_tick := _last_tick h |}.
Definition set_sockets (h : Hub) (ss : gmap string WebSocket) : Hub :=
  {| players := players h; sockets := ss;
     _tick_task := _tick_task h; _last_tick := _last_tick h |}.
Definition set_tick_task (h : Hub) (t : option Task) : Hub :=
  {| players := players h; sockets := sockets h;
     _tick_task := t; _last_tick := _last_tick h |}.
Definition set_last_tick (h : Hub) (t : option float) : Hub :=
  {| players := players h; sockets := sockets h;
     _tick_task := _tick_task h; _last_tick := t |}.

Definition set_input (p : Player) (i : InputState) : Player :=
  {| id := id p; x := x p; y := y p; speed := speed p;
     label := label p; color := color p; input := i |}.

(** The names bound in the module's global namespace: its imports and its
    top-level definitions. *)
Definition module_globals : list string :=
  [ "asyncio"; "json"; "math"; "os"; "random"; "string"; "time";
    "dataclass"; "field"; "asdict";
    "Dict"; "Set"; "Tuple"; "Optional"; "List";
    "FastAPI"; "WebSocket"; "WebSocketDisconnect"; "HTMLResponse";
    "TILE_SIZE"; "MAP_COLS"; "MAP_ROWS"; "WORLD_WIDTH"; "WORLD_HEIGHT";
    "PLAYER_SIZE"; "DEFAULT_PLAYER_SPEED"; "TICK_RATE"; "TICK_MS";
    "_clamp"; "_rand_id"; "_rand_color"; "InputState"; "Player"; "Hub";
    "app"; "hub"; "_on_startup"; "_on_shutdown"; "root"; "ws_endpoint" ]%string.

(** Evaluating a global name that is bound nowhere raises [NameError]. *)
Definition lookup_global (name : string) : M unit :=
  if existsb (String.eqb name) module_globals then ret tt
  else raise (NameError name).

(** What the transport and the clock answer; they may depend on everything
    that happened before. *)
Record Env := mkEnv {
  send_fails : list event -> WebSocket -> Msg -> option exn;
  accept_fails : list event -> WebSocket -> option exn;
  clock : list event -> float
}.

Section Server.

Variable env : Env.

Definition history : M (list event) := fun h hist => mkResult (Ok hist) h [].

(** [await ws.send_text(msg)] *)
Definition send_text (ws : WebSocket) (msg : Msg) : M unit :=
  hist <- history ;;
  emit (EvSend ws msg) ;;;
  match send_fails env hist ws msg with
  | Some e => raise e
  | None => ret tt
  end.

(** [await ws.accept()] *)
Definition accept (ws : WebSocket) : M unit :=
  hist <- history ;;
  emit (EvAccept ws) ;;;
  match accept_fails env hist ws with
  | Some e => raise e
  | None => ret tt
  end.

(** [time.perf_counter()] *)
Definition perf_counter : M float :=
  hist <- history ;;
  emit EvClock ;;;
  ret (clock env hist).

(** [await asyncio.sleep(secs)] in the tick task: the task suspends, and is
    resumed with [CancelledError] when its cancellation was requested. *)
Definition sleep (secs : float) : M unit :=
  emit (EvSleep secs) ;;;
  h <- get ;;
  match _tick_task h with
  | Some TaskCancelling => raise CancelledError
  | _ => ret tt
  end.

(** [await asyncio.gather] with [return_exceptions=True]: every task runs,
    and what it raises becomes its result.  The tasks run concurrently in the
    program; here they run one after the other, in the order given. *)
Fixpoint gather (tasks : list (M unit)) : M (list (option exn)) :=
  match tasks with
  | [] => ret []
  | t :: ts =>
      r <- try_except (t ;;; ret None) (fun e => ret (Some e)) ;;
      rs <- gather ts ;;
      ret (r :: rs)
  end.

(** [Hub._safe_send] *)
Definition _safe_send (ws : WebSocket) (msg : Msg) : M unit :=
  try_except (send_text ws msg)
    (fun e => if is_Exception e then ret tt else raise e).

(** [[p.snapshot() for p in self.players.values()]] *)
Definition snapshots (h : Hub) : list Snapshot :=
  (fun kv => snapshot kv.2) <$> map_to_list (players h).

(** [Hub._step] *)
Definition _step (dt : float) : M unit :=
  with_lock (
    h <- get ;;
    emit (EvRead RPlayers) ;;;
    emit (EvWrite RPlayers) ;;;
    put (set_players h ((fun p => integrate p dt) <$> players h))).

(** [Hub._broadcast_state] *)
Definition _broadcast_state : M unit :=
  h <- get ;;
  emit (EvRead RPlayers) ;;;
  let msg := MsgState (snapshots h) in
  emit (EvRead RSockets) ;;;
  _ <- gather ((fun kv => _safe_send kv.2 msg) <$> map_to_list (sockets h)) ;;
  ret tt.

(** [not exclude or p not in exclude] *)
Definition is_target (exclude : option (list string)) (p : string) : bool :=
  match exclude with
  | None => true
  | Some l => match l with [] => true | _ => false end || negb (bool_decide (p ∈ l))
  end.

(** [Hub._broadcast_event] *)
Definition _broadcast_event (ev : Msg) (exclude : option (list string)) : M unit :=
  h <- get ;;
  emit (EvRead RSockets) ;;;
  let targets := filter (fun kv => is_target exclude kv.1 = true) (map_to_list (sockets h)) in
  _ <- gather ((fun kv => _safe_send kv.2 ev) <$> targets) ;;
  ret tt.

(** [Hub.connect] *)
Definition connect (ws : WebSocket) (r : Rand) : M string :=
  accept ws ;;;
  let player := new_player r in
  let pid := id player in
  with_lock (
    h <- get ;;
    emit (EvWrite RPlayers) ;;;
    put (set_players h (<[pid := player]> (players h))) ;;;
    h <- get ;;
    emit (EvWrite RSockets) ;;;
    put (set_sockets h (<[pid := ws]> (sockets h)))) ;;;
  h <- get ;;
  emit (EvRead RPlayers) ;;;
  send_text ws (MsgWelcome pid (snapshots h)) ;;;
  _broadcast_event (MsgJoin pid) (Some [pid]) ;;;
  ret pid.

(** [Hub.disconnect] *)
Definition disconnect (pid : string) : M unit :=
  with_lock (
    h <- get ;;
    emit (EvWrite RPlayers) ;;;
    put (set_players h (delete pid (players h))) ;;;
    h <- get ;;
    emit (EvWrite RSockets) ;;;
    put (set_sockets h (delete pid (sockets h)))) ;;;
  _broadcast_event (MsgLeave pid) None.

(** The flags [handle_message] stores: [bool(data.get(k))] for each. *)
Definition input_of (data : gmap string pyval) : InputState :=
  {| up := truthy (dict_get data "up");
     down := truthy (dict_get data "down");
     left := truthy (dict_get data "left");
     right := truthy (dict_get data "right") |}.

(** [Hub.handle_message] *)
Definition handle_message (pid : string) (data : gmap string pyval) : M unit :=
  if py_ne_str (dict_get data "type") "input" then ret tt
  else if py_ne_str (dict_get data "id") pid then ret tt
  else
    with_lock (
      h <- get ;;
      emit (EvRead RPlayers) ;;;
      match players h !! pid with
      | None => ret tt
      | Some p =>
          emit (EvWrite RPlayers) ;;;
          put (set_players h (<[pid := set_input p (input_of data)]> (players h)))
      end).

(** [Hub.start] *)
Definition start : M unit :=
  h <- get ;;
  match _tick_task h with
  | None => put (set_tick_task h (Some TaskRunning))
  | Some _ => ret tt
  end.

(** [with contextlib.suppress(asyncio.CancelledError): body].  The context
    manager is looked up in the module's globals first. *)
Definition with_suppress_CancelledError (body : M unit) : M unit :=
  lookup_global "contextlib" ;;;
  try_except body
    (fun e => match e with CancelledError => ret tt | _ => raise e end).

(** [await self._tick_task]: the tick task ends at its next suspension point
    once cancelled ([_ticker] returns on [CancelledError]). *)
Definition await_tick_task : M unit := ret tt.

(** [Hub.stop] *)
Definition stop : M unit :=
  h <- get ;;
  match _tick_task h with
  | Some _ =>
      emit EvCancel ;;;
      put (set_tick_task h (Some TaskCancelling)) ;;;
      with_suppress_CancelledError await_tick_task ;;;
      h <- get ;;
      put (set_tick_task h None)
  | None => ret tt
  end.

(** [self._last_tick or now] *)
Definition last_or (last : option float) (now : float) : float :=
  match last with
  | Some t => if fneq t 0 then t else now
  | None => now
  end.

(** One turn of the [while True] loop of [Hub._ticker]; the literal [0.1] is
    the double [0x1.999999999999ap-4]. *)
Definition _ticker_iteration : M unit :=
  now <- perf_counter ;;
  h <- get ;;
  let dt := (now - last_or (_last_tick h) now)%float in
  put (set_last_tick h (Some now)) ;;;
  let dt := py_min dt 0x1.999999999999ap-4 in
  _step dt ;;;
  _broadcast_state ;;;
  sleep (TICK_MS / 1000).

(** The first [n] turns of the loop. *)
Fixpoint _ticker_loop (n : nat) : M unit :=
  match n with
  | O => ret tt
  | S k => _ticker_iteration ;;; _ticker_loop k
  end.

(** [Hub._ticker], observed for [n] turns of its loop. *)
Definition _ticker (n : nat) : M unit :=
  now <- perf_counter ;;
  h <- get ;;
  put (set_last_tick h (Some now)) ;;;
  try_except (_ticker_loop n)
    (fun e => match e with CancelledError => ret tt | _ => raise e end).

(** The calls made on a hub. *)
Inductive op :=
| OpStart
| OpStop
| OpConnect (ws : WebSocket) (r : Rand)
| OpDisconnect (pid : string)
| OpMessage (pid : string) (data : gmap string pyval)
| OpTicker (n : nat).

Definition run_op (o : op) : M unit :=
  match o with
  | OpStart => start
  | OpStop => stop
  | OpConnect ws r => _ <- connect ws r ;; ret tt
  | OpDisconnect pid => disconnect pid
  | OpMessage pid data => handle_message pid data
  | OpTicker n => _ticker n
  end.

(** A sequence of calls, each made by its own task: what one raises ends that
    task, and the hub keeps the state it was left in. *)
Fixpoint run_ops (ops : list op) (h : Hub) (hist : list event) : Hub * list event :=
  match ops with
  | [] => (h, hist)
  | o :: rest =>
      let r := run_op o h hist in
      run_ops rest (hub_of r) (hist ++ emitted r)
  end.

End Server.

(** ** The connection endpoint *)

(** What one turn of the receive loop gets from [await ws.receive_text()]: a
    text frame, or an exception. *)
Inductive received :=
| RecvText (raw : string)
| RecvRaise (e : exn).

(** A decoded value used as the [data] of [handle_message]: only a dict has
    a [get]; a dict is given by its items. *)
Definition as_dict (v : pyval) : option (gmap string pyval) :=
  match v with
  | PDict d => Some (list_to_map d)
  | _ => None
  end.

Section Endpoint.

Variable env : Env.

(** [json.loads]: the decoded value, or [None] when it raises. *)
Variable json_loads : string -> option pyval.

(** [await hub.handle_message(pid, data)] on a decoded value: on anything but
    a dict the first [data.get] raises [AttributeError]. *)
Definition handle_decoded (pid : string) (v : pyval) : M unit :=
  match as_dict v with
  | Some data => handle_message pid data
  | None => raise (OtherException "AttributeError")
  end.

(** The [while True] loop of [ws_endpoint], fed with the frames that arrive;
    when they run out the loop is waiting for the next one. *)
Fixpoint receive_loop (pid : string) (incoming : list received) : M unit :=
  match incoming with
  | [] => ret tt
  | RecvRaise e :: _ => raise e
  | RecvText raw :: rest =>
      match json_loads raw with
      | None => receive_loop pid rest
      | Some v => handle_decoded pid v ;;; receive_loop pid rest
      end
  end.

(** [ws_endpoint]: [connect] is called outside the [try]; both handlers
    ([WebSocketDisconnect] and [Exception]) call [disconnect]. *)
Definition ws_endpoint (ws : WebSocket) (r : Rand) (incoming : list received) : M unit :=
  pid <- connect env ws r ;;
  try_except (receive_loop pid incoming)
    (fun e => if is_Exception e then disconnect env pid else raise e).

End Endpoint.

(** * Vocabulary of the properties *)

(** ** Floats as numbers *)

(** [a <= b] holds in binary64 (false as soon as one side is a NaN). *)
Definition fle (a b : float) : Prop := (a <=? b)%float = true.

(** Equality of floats as numbers ([==] of Python): [0.0 == -0.0]. *)
Definition feq (a b : float) : Prop := (a =? b)%float = true.

(** A finite float: a zero or a finite non-zero number. *)
Definition finite (f : float) : Prop :=
  match Prim2SF f with
  | S754_zero _ | S754_finite _ _ _ => True
  | _ => False
  end.

(** The absolute value of a finite float, as a real number. *)
Definition SFmag (f : spec_float) : R :=
  match f with
  | S754_finite _ m e => (IZR (Zpos m) * powerRZ 2 e)%R
  | _ => 0%R
  end.

Definition Fmag (f : float) : R := SFmag (Prim2SF f).

(** [f] is a normal float (not zero, not subnormal, not infinite, not a NaN)
    whose exponent field lies in [[lo, hi]]: [2^(lo+52) <= |f| < 2^(hi+53)]. *)
Definition exponent_within (f : float) (lo hi : Z) : Prop :=
  match Prim2SF f with
  | S754_finite _ _ e => -1074 < e /\ lo <= e <= hi
  | _ => False
  end.

(** A normal float of moderate size, [2^-501 <= |f| < 2^500]: products of two
    or three of them neither underflow nor overflow. *)
Definition moderate (f : float) : Prop := exponent_within f (-553) 447.

(** The unit roundoff of binary64. *)
Definition u64 : R := powerRZ 2 (-53).

(** The float [1.0]. *)
Definition SF_one : spec_float := S754_finite false 4503599627370496 (-52).

(** ** Rounding of an exact integer mantissa, as [binary_round_aux] does it *)

(** After [k] right shifts of [P], the record holds the quotient by [2^k] and
    where the remainder lies with respect to the half. *)
Definition shr_inv (P k : Z) (mrs : shr_record) : Prop :=
  0 <= shr_m mrs /\
  0 <= P - shr_m mrs * 2 ^ k < 2 ^ k /\
  (shr_r mrs = true <-> 2 ^ k <= 2 * (P - shr_m mrs * 2 ^ k)) /\
  (shr_s mrs = true <->
     P - shr_m mrs * 2 ^ k <> 0 /\ 2 * (P - shr_m mrs * 2 ^ k) <> 2 ^ k).

(** The shift that [binary_round_aux] applies to an exact integer mantissa. *)
Definition round_shift (P E : Z) : Z := Z.max 0 (fexp prec emax (Zdigits2 P + E) - E).

(** The mantissa after the shift and the rounding to nearest, ties to even. *)
Definition rounded (P E : Z) : Z :=
  let mrs := fst (shr_fexp prec emax P E loc_Exact) in
  round_nearest_even (shr_m mrs) (loc_of_shr_record mrs).

(** A float from a sign, a non-negative mantissa and an exponent, with the
    overflow test of [binary_round_aux]. *)
Definition SF_of (s : bool) (m e : Z) : spec_float :=
  match m with
  | Z0 => S754_zero s
  | Zpos p => if e <=? emax - prec then S754_finite s p e else S754_infinity s
  | Zneg _ => S754_nan
  end.

(** ** Players *)

(** The clamping invariant of a player. *)
Definition in_bounds (p : Player) : Prop :=
  fle 0 (x p) /\ fle (x p) X_MAX /\ fle 0 (y p) /\ fle (y p) Y_MAX.

(** [random.random()] returns a float of [[0.0, 1.0)]. *)
Definition unit_draw (r : float) : Prop :=
  (0 <=? r)%float = true /\ (r <? 1)%float = true.

(** The velocity of a driven axis: [0.0 - s] or [0.0 + s]. *)
Definition signed_speed (s v : float) : Prop := v = (0 - s)%float \/ v = (0 + s)%float.

(** Both axes are driven: exactly one of left/right and one of up/down. *)
Definition diagonal (i : InputState) : bool :=
  xorb (left i) (right i) && xorb (up i) (down i).

(** Exactly one axis is driven. *)
Definition single_axis (i : InputState) : bool :=
  xorb (xorb (left i) (right i)) (xorb (up i) (down i)).

(** The length of the displacement [(dx, dy)], as a real number. *)
Definition displacement_magnitude (dx dy : float) : R :=
  sqrt (Fmag dx * Fmag dx + Fmag dy * Fmag dy).

(** The length of the pre-clamp displacement [(vx * dt, vy * dt)] of one
    [integrate(dt)]. *)
Definition step_magnitude (p : Player) (dt : float) : R :=
  displacement_magnitude ((velocity p).1 * dt) ((velocity p).2 * dt).

(** ** Hubs and traces *)

(** One send attempt of [msg] per entry of [l], in order. *)
Definition sends (msg : Msg) (l : list (string * WebSocket)) : list event :=
  (fun kv => EvSend kv.2 msg) <$> l.

(** The entries [_broadcast_event] sends to. *)
Definition targets (exclude : option (list string)) (h : Hub) : list (string * WebSocket) :=
  filter (fun kv => is_target exclude kv.1 = true) (map_to_list (sockets h)).

(** The hub after the lock-protected part of [disconnect]. *)
Definition removed (pid : string) (h : Hub) : Hub :=
  {| players := delete pid (players h); sockets := delete pid (sockets h);
     _tick_task := _tick_task h; _last_tick := _last_tick h |}.

(** The hub after the lock-protected part of [connect]. *)
Definition registered (ws : WebSocket) (r : Rand) (h : Hub) : Hub :=
  {| players := <[id (new_player r) := new_player r]> (players h);
     sockets := <[id (new_player r) := ws]> (sockets h);
     _tick_task := _tick_task h; _last_tick := _last_tick h |}.

(** The events of [connect] up to the welcome frame. *)
Definition connect_prefix (ws : WebSocket) (r : Rand) (h : Hub) : list event :=
  [EvAccept ws; EvAcquire; EvWrite RPlayers; EvWrite RSockets; EvRelease;
   EvRead RPlayers;
   EvSend ws (MsgWelcome (id (new_player r)) (snapshots (registered ws r h)))].

(** The hub after an accepted input message for [pid], held by [p]. *)
Definition with_input (pid : string) (p : Player) (data : gmap string pyval) (h : Hub) : Hub :=
  set_players h (<[pid := set_input p (input_of data)]> (players h)).

(** The [dt] of the turn of the tick loop that read the clock at [now]. *)
Definition tick_dt (now : float) (h : Hub) : float :=
  py_min (now - last_or (_last_tick h) now) 0x1.999999999999ap-4.

(** The hub after that turn. *)
Definition ticked (now : float) (h : Hub) : Hub :=
  {| players := (fun p => integrate p (tick_dt now h)) <$> players h;
     sockets := sockets h;
     _tick_task := _tick_task h;
     _last_tick := Some now |}.

(** The events of that turn. *)
Definition tick_events (now : float) (h : Hub) : list event :=
  [EvClock; EvAcquire; EvRead RPlayers; EvWrite RPlayers; EvRelease;
   EvRead RPlayers; EvRead RSockets]
  ++ sends (MsgState (snapshots (ticked now h))) (map_to_list (sockets h))
  ++ [EvSleep (TICK_MS / 1000)].

(** How many times a trace went to sleep. *)
Fixpoint count_sleeps (t : list event) : nat :=
  match t with
  | [] => 0
  | EvSleep _ :: t' => S (count_sleeps t')
  | _ :: t' => count_sleeps t'
  end.

(** How the tick loop changes the world: the same ids, the same sockets, and
    every player either untouched or integrated (hence within bounds). *)
Definition moved (h h' : Hub) : Prop :=
  sockets h' = sockets h /\
  _tick_task h' = _tick_task h /\
  forall pid,
    option_Forall2 (fun p p' => p' = p \/ in_bounds p') (players h !! pid) (players h' !! pid).

(** The two collections hold the same ids. *)
Definition lockstep (h : Hub) : Prop := dom (players h) = dom (sockets h).

(** Every player is inside the world rectangle. *)
Definition all_in_bounds (h : Hub) : Prop :=
  forall pid p, players h !! pid = Some p -> in_bounds p.

(** The random floats an operation consumes are unit draws. *)
Definition op_draws_ok (o : op) : Prop :=
  match o with
  | OpConnect _ r => unit_draw (x_draw r) /\ unit_draw (y_draw r)
  | _ => True
  end.

(** A trace without a send, without a write. *)
Definition no_send (t : list event) : Prop := forall ws m, EvSend ws m ∉ t.
Definition no_write (t : list event) : Prop := forall r, EvWrite r ∉ t.

(** The lock state after a trace, started with the lock [held] or not; [None]
    when the trace mutates a collection outside the critical section, does
    network I/O or sleeps inside it, or takes or releases the lock twice. *)
Fixpoint lock_after (held : bool) (t : list event) : option bool :=
  match t with
  | [] => Some held
  | e :: t' =>
      match e with
      | EvAcquire => if held then None else lock_after true t'
      | EvRelease => if held then lock_after false t' else None
      | EvWrite _ => if held then lock_after held t' else None
      | EvAccept _ | EvSend _ _ | EvSleep _ => if held then None else lock_after held t'
      | EvRead _ | EvClock | EvCancel => lock_after held t'
      end
  end.

(** A trace that starts and ends with the lock free and keeps the discipline
    of [lock_after]. *)
Definition disciplined (t : list event) : Prop := lock_after false t = Some false.

(** Every read of a world collection happens while the lock is held. *)
Fixpoint reads_locked (held : bool) (t : list event) : bool :=
  match t with
  | [] => true
  | e :: t' =>
      match e with
      | EvAcquire => reads_locked true t'
      | EvRelease => reads_locked false t'
      | EvRead _ => held && reads_locked held t'
      | _ => reads_locked held t'
      end
  end.

(** The stricter discipline: that of [disciplined], and every read of a world
    collection inside the critical section. *)
Definition strictly_disciplined (t : list event) : Prop :=
  disciplined t /\ reads_locked false t = true.

(** ** Ids, labels and sessions *)

(** The characters a label can hold after its ["P"]. *)
Definition upper_alphabet : list ascii :=
  list_ascii_of_string "ABCDEFGHIJKLMNOPQRSTUVWXYZ0123456789".

(** No axis is driven: no flag, or two opposite flags, on each axis. *)
Definition idle (i : InputState) : Prop :=
  xorb (left i) (right i) = false /\ xorb (up i) (down i) = false.

(** The exception that ends the receive loop on the frames [incoming], if
    any: the first exception of a receive, or the [AttributeError] of the
    first frame that decodes to something else than a dict; frames that do
    not decode are skipped. *)
Fixpoint session_end (loads : string -> option pyval) (incoming : list received)
    : option exn :=
  match incoming with
  | [] => None
  | RecvRaise e :: _ => Some e
  | RecvText raw :: rest =>
      match loads raw with
      | None => session_end loads rest
      | Some v =>
          match as_dict v with
          | Some _ => session_end loads rest
          | None => Some (OtherException "AttributeError")
          end
      end
  end.

(** Every player is stored under its own id. *)
Definition keyed (h : Hub) : Prop :=
  forall pid p, players h !! pid = Some p -> id p = pid.

(** Two floats that are the same number: the same float, or two zeros. *)
Definition same_number (a b : float) : Prop :=
  Prim2SF a = Prim2SF b \/
  (exists s t, Prim2SF a = S754_zero s /\ Prim2SF b = S754_zero t).

(** ** Example inputs *)

(** A transport on which everything succeeds; the clock advances with the
    events. *)
Definition env_ok : Env :=
  {| send_fails := fun _ _ _ => None;
     accept_fails := fun _ _ => None;
     clock := fun hist => (of_uint63 (Uint63.of_Z (Z.of_nat (length hist))) / 20)%float |}.

(** A transport on which every send raises. *)
Definition env_down : Env :=
  {| send_fails := fun _ _ _ => Some (OtherException "RuntimeError");
     accept_fails := fun _ _ => None;
     clock := fun hist => (of_uint63 (Uint63.of_Z (Z.of_nat (length hist))) / 20)%float |}.

(** Two outcomes of the random generator; their ids are ["abcdef"] and
    ["hjlnpr"]. *)
Definition rand_a : Rand := mkRand (fun i => i) 0.5%float 0.25%float 3.
Definition rand_b : Rand := mkRand (fun i => 2 * i + 7)%nat 0.75%float 0.125%float 1.

(** Two input messages, claiming the ids ["abcdef"] and ["hjlnpr"]. *)
Definition data_left : gmap string pyval :=
  {[ "type" := PStr "input"; "id" := PStr "abcdef"; "left" := PBool true ]}.
Definition data_forged : gmap string pyval :=
  {[ "type" := PStr "input"; "id" := PStr "hjlnpr"; "left" := PBool true ]}.

(** A hub with one player (id ["abcdef"]) and a started tick task. *)
Definition hub_one : Hub :=
  (run_ops env_ok [OpStart; OpConnect (Socket 1) rand_a] Hub_init []).1.

(** A hub with two players (ids ["abcdef"] and ["hjlnpr"]). *)
Definition hub_two : Hub :=
  (run_ops env_ok [OpConnect (Socket 1) rand_a; OpConnect (Socket 2) rand_b] Hub_init []).1.

(** Two players at the default speed: one driven up and right, one right. *)
Definition player_diag : Player :=
  mkPlayer "abcdef" 100 100 DEFAULT_PLAYER_SPEED "PAB" "#2563eb" (mkInput true false false true).
Definition player_axis : Player :=
  mkPlayer "hjlnpr" 100 100 DEFAULT_PLAYER_SPEED "PHJ" "#059669" (mkInput false false false true).

(** The tick period [TICK_MS / 1000.0], that is [0.05], as a double. *)
Definition dt_tick : float := 0x1.999999999999ap-5%float.

(** A decoder for three frames: an input message for ["abcdef"], an empty
    list, and anything else, which does not decode. *)
Definition loads_example (raw : string) : option pyval :=
  if String.eqb raw "left" then
    Some (PDict [("type", PStr "input"); ("id", PStr "abcdef"); ("left", PBool true)])
  else if String.eqb raw "[]" then Some (PList [])
  else None.

(** A transport whose welcome frames fail and whose other sends succeed. *)
Definition env_no_welcome : Env :=
  {| send_fails := fun _ _ m =>
       match m with
       | MsgWelcome _ _ => Some WebSocketDisconnect
       | _ => None
       end;
     accept_fails := fun _ _ => None;
     clock := fun hist => (of_uint63 (Uint63.of_Z (Z.of_nat (length hist))) / 20)%float |}.

(** * Properties *)

(** ** Order on floats and the clamp *)

Lemma SF_ltb_leb (a b : spec_float) : SFltb a b = true -> SFleb a b = true.
Proof. unfold SFltb, SFleb. destruct (SFcompare a b) as [[]|]; congruence. Qed.

Lemma ltb_leb (a b : float) : (a <? b)%float = true -> fle a b.
Proof. unfold fle. rewrite ltb_spec, leb_spec. apply SF_ltb_leb. Qed.

Lemma _clamp_bounds (v lo hi : float) :
  fle lo hi -> fle lo lo -> fle hi hi ->
  fle lo (_clamp v lo hi) /\ fle (_clamp v lo hi) hi.
Proof.
  intros Hlh Hll Hhh. unfold _clamp, py_max, py_min.
  destruct (v <? hi)%float eqn:Hv.
  - destruct (lo <? v)%float eqn:Hl.
    + split; apply ltb_leb; assumption.
    + split; assumption.
  - destruct (lo <? hi)%float eqn:Hl; split; assumption.
Qed.

Lemma integrate_in_bounds (p : Player) (dt : float) : in_bounds (integrate p dt).
Proof.
  unfold in_bounds, integrate. destruct (velocity p) as [vx vy]. cbn [x y].
  destruct (_clamp_bounds (x p + vx * dt) 0 X_MAX) as [? ?]; try reflexivity.
  destruct (_clamp_bounds (y p + vy * dt) 0 Y_MAX) as [? ?]; try reflexivity.
  auto.
Qed.

(** One tick to the left at the default speed moves by [220 * 0.05 = 11]
    pixels; near the border the position stops at [0]; a NaN step lands on the
    upper bound, since [min(930, nan)] is [930]. *)
Example integrate_left :
  x (integrate (mkPlayer "a" 100 50 DEFAULT_PLAYER_SPEED "PA" "#2563eb"
                  (mkInput false false true false)) dt_tick) = 89%float.
Proof. reflexivity. Qed.

Example integrate_left_at_border :
  x (integrate (mkPlayer "a" 5 50 DEFAULT_PLAYER_SPEED "PA" "#2563eb"
                  (mkInput false false true false)) dt_tick) = 0%float.
Proof. reflexivity. Qed.

Example integrate_nan_step :
  x (integrate (mkPlayer "a" 100 50 DEFAULT_PLAYER_SPEED "PA" "#2563eb"
                  (mkInput false false true false)) nan) = X_MAX.
Proof. reflexivity. Qed.

Lemma integrate_keeps (p : Player) (dt : float) :
  id (integrate p dt) = id p /\ speed (integrate p dt) = speed p /\
  label (integrate p dt) = label p /\ color (integrate p dt) = color p /\
  input (integrate p dt) = input p.
Proof. unfold integrate. destruct (velocity p). cbn. auto. Qed.

(** ** Rounding in binary64 *)

Lemma digits2_pos_bounds (p : positive) :
  2 ^ (Zpos (digits2_pos p) - 1) <= Zpos p < 2 ^ Zpos (digits2_pos p).
Proof.
  induction p as [p IH|p IH|]; cbn [digits2_pos]; [| |cbn; lia].
  all: rewrite Pos2Z.inj_succ.
  all: replace (Z.succ (Zpos (digits2_pos p)) - 1) with (Z.succ (Zpos (digits2_pos p) - 1)) by lia.
  all: rewrite !Z.pow_succ_r by lia.
  all: set (lo := 2 ^ (Zpos (digits2_pos p) - 1)) in *.
  all: set (hi := 2 ^ Zpos (digits2_pos p)) in *.
  - rewrite Pos2Z.inj_xI. lia.
  - rewrite Pos2Z.inj_xO. lia.
Qed.

Lemma digits2_pos_le (p : positive) (d : Z) : Zpos p < 2 ^ d -> Zpos (digits2_pos p) <= d.
Proof.
  intros H. destruct (Z.le_gt_cases (Zpos (digits2_pos p)) d) as [|Hgt]; [assumption|].
  pose proof (digits2_pos_bounds p) as [Hlo _].
  assert (2 ^ d <= 2 ^ (Zpos (digits2_pos p) - 1)).
  { destruct (Z.lt_ge_cases d 0) as [Hn|Hn].
    - rewrite (Z.pow_neg_r 2 d Hn). apply Z.pow_nonneg. lia.
    - apply Z.pow_le_mono_r; lia. }
  lia.
Qed.

Lemma iter_pos_nat {A} (f : A -> A) (p : positive) (a : A) :
  SpecFloat.iter_pos f p a = Nat.iter (Pos.to_nat p) f a.
Proof.
  revert a. induction p as [p IH|p IH|]; intros a; cbn [SpecFloat.iter_pos].
  - rewrite !IH, Pos2Nat.inj_xI.
    replace (2 * Pos.to_nat p)%nat with (Pos.to_nat p + Pos.to_nat p)%nat by lia.
    rewrite !Nat.iter_swap, <- Nat.iter_add. reflexivity.
  - rewrite !IH, Pos2Nat.inj_xO.
    replace (2 * Pos.to_nat p)%nat with (Pos.to_nat p + Pos.to_nat p)%nat by lia.
    rewrite Nat.iter_add. reflexivity.
  - reflexivity.
Qed.

Lemma shr_1_nonneg (m : Z) (r s : bool) :
  0 <= m -> shr_1 (Build_shr_record m r s) = Build_shr_record (Z.div2 m) (Z.odd m) (r || s).
Proof. intros Hm. destruct m as [|[p|p|]|p]; try reflexivity; lia. Qed.

Lemma shr_inv_0 (P : Z) : 0 <= P -> shr_inv P 0 (Build_shr_record P false false).
Proof.
  intros HP. unfold shr_inv; cbn [shr_m shr_r shr_s]. rewrite Z.pow_0_r.
  split; [lia|]. split; [lia|]. split; split; intros; try discriminate; exfalso; lia.
Qed.

Lemma shr_inv_step (P k : Z) (mrs : shr_record) :
  0 <= k -> shr_inv P k mrs -> shr_inv P (k + 1) (shr_1 mrs).
Proof.
  intros Hk. destruct mrs as [m r s]. unfold shr_inv; cbn [shr_m shr_r shr_s].
  intros (Hm & Hrem & Hr & Hs). rewrite (shr_1_nonneg m r s Hm). cbn [shr_m shr_r shr_s].
  rewrite Z.pow_add_r, Z.pow_1_r by lia.
  pose proof (Z.div2_odd m) as Hd. set (m' := Z.div2 m) in *. set (X := 2 ^ k) in *.
  assert (0 < X) by (apply Z.pow_pos_nonneg; lia).
  assert (Hmul : m * X = 2 * (m' * X) + Z.b2z (Z.odd m) * X) by (rewrite Hd at 1; ring).
  destruct (Z.odd m); cbn [Z.b2z] in *.
  - split; [lia|]. split; [lia|]. split; [split; intros; [lia|reflexivity]|].
    rewrite orb_true_iff, Hr, Hs. split; [intros [?|[? ?]]; lia|].
    intros [? ?]. destruct (Z.eq_dec (2 * (P - m * X)) X); [left; lia|].
    destruct (Z.le_gt_cases X (2 * (P - m * X))); [left; assumption|right; lia].
  - split; [lia|]. split; [lia|]. split; [split; intros; [discriminate|exfalso; lia]|].
    rewrite orb_true_iff, Hr, Hs. split; [intros [?|[? ?]]; lia|].
    intros [? ?]. destruct (Z.le_gt_cases X (2 * (P - m * X))); [left; assumption|right; lia].
Qed.

Lemma shr_inv_iter (P : Z) (n : nat) :
  0 <= P ->
  shr_inv P (Z.of_nat n) (Nat.iter n shr_1 (Build_shr_record P false false)).
Proof.
  intros HP. induction n as [|n IH]; [apply shr_inv_0; assumption|].
  rewrite Nat2Z.inj_succ. cbn [Nat.iter]. unfold Z.succ. apply shr_inv_step; [lia|exact IH].
Qed.

Lemma shr_fexp_exponent (P E : Z) :
  snd (shr_fexp prec emax P E loc_Exact) = E + round_shift P E.
Proof.
  unfold shr_fexp, shr, round_shift.
  destruct (fexp prec emax (Zdigits2 P + E) - E); cbn [snd]; lia.
Qed.

(** The rounded mantissa is within half a unit of the exact quotient. *)
Lemma rounded_nearest (P E : Z) :
  0 < P ->
  0 <= rounded P E /\
  2 * (rounded P E * 2 ^ round_shift P E) <= 2 * P + 2 ^ round_shift P E /\
  2 * P <= 2 * (rounded P E * 2 ^ round_shift P E) + 2 ^ round_shift P E.
Proof.
  intros HP. unfold rounded, round_shift, shr_fexp, shr. cbn [shr_record_of_loc].
  destruct (fexp prec emax (Zdigits2 P + E) - E) as [|p|p]; cbn [fst].
  - cbn [shr_m loc_of_shr_record round_nearest_even]. rewrite Z.max_id, Z.pow_0_r. lia.
  - rewrite iter_pos_nat.
    pose proof (shr_inv_iter P (Pos.to_nat p) (Z.lt_le_incl _ _ HP)) as Hinv.
    rewrite positive_nat_Z in Hinv.
    replace (Z.max 0 (Zpos p)) with (Zpos p) by lia.
    destruct (Nat.iter (Pos.to_nat p) shr_1 _) as [m r s].
    unfold shr_inv in Hinv; cbn [shr_m shr_r shr_s] in Hinv.
    destruct Hinv as (Hm & Hrem & Hr & Hs).
    cbn [shr_m loc_of_shr_record].
    set (X := 2 ^ Zpos p) in *. set (Q := m * X) in *.
    assert (HX : 0 < X) by (apply Z.pow_pos_nonneg; lia).
    destruct r, s; cbn [round_nearest_even].
    + assert (X <= 2 * (P - Q)) by (apply Hr; reflexivity).
      assert (2 * (P - Q) <> X) by (apply Hs; reflexivity).
      replace ((m + 1) * X) with (Q + X) by (unfold Q; ring). lia.
    + assert (X <= 2 * (P - Q)) by (apply Hr; reflexivity).
      assert (2 * (P - Q) = X).
      { destruct (Z.eq_dec (2 * (P - Q)) X) as [|Hne]; [assumption|].
        assert (false = true) by (apply Hs; lia). discriminate. }
      destruct (Z.even m); [fold Q; lia|].
      replace ((m + 1) * X) with (Q + X) by (unfold Q; ring). lia.
    + assert (~ X <= 2 * (P - Q)) by (intros Hc; apply Hr in Hc; discriminate).
      fold Q. lia.
    + assert (~ X <= 2 * (P - Q)) by (intros Hc; apply Hr in Hc; discriminate).
      fold Q. lia.
  - cbn [shr_m loc_of_shr_record round_nearest_even].
    replace (Z.max 0 (Zneg p)) with 0 by lia. rewrite Z.pow_0_r. lia.
Qed.

(** Rounding never passes a multiple of the unit: it is monotone with respect
    to the numbers representable at the chosen exponent. *)
Lemma rounded_le (P E K : Z) :
  0 < P -> P <= K * 2 ^ round_shift P E -> rounded P E <= K.
Proof.
  intros HP HK. destruct (rounded_nearest P E HP) as (_ & Hup & _).
  assert (HX : 0 < 2 ^ round_shift P E) by (apply Z.pow_pos_nonneg; unfold round_shift; lia).
  set (X := 2 ^ round_shift P E) in *.
  destruct (Z.le_gt_cases (rounded P E) K) as [|Hgt]; [assumption|exfalso].
  assert ((K + 1) * X <= rounded P E * X) by (apply Z.mul_le_mono_nonneg_r; lia).
  lia.
Qed.

Lemma rounded_ge (P E K : Z) :
  0 < P -> K * 2 ^ round_shift P E <= P -> K <= rounded P E.
Proof.
  intros HP HK. destruct (rounded_nearest P E HP) as (_ & _ & Hlo).
  assert (HX : 0 < 2 ^ round_shift P E) by (apply Z.pow_pos_nonneg; unfold round_shift; lia).
  set (X := 2 ^ round_shift P E) in *.
  destruct (Z.le_gt_cases K (rounded P E)) as [|Hgt]; [assumption|exfalso].
  assert ((rounded P E + 1) * X <= K * X) by (apply Z.mul_le_mono_nonneg_r; lia).
  lia.
Qed.

Lemma Zdigits2_bounds (m : Z) : 0 < m -> 2 ^ (Zdigits2 m - 1) <= m < 2 ^ Zdigits2 m.
Proof. destruct m as [|p|p]; try lia. intros _. apply digits2_pos_bounds. Qed.

Lemma Zdigits2_le (m d : Z) : 0 < m -> m < 2 ^ d -> Zdigits2 m <= d.
Proof. destruct m as [|p|p]; try lia. intros _. apply digits2_pos_le. Qed.

Lemma rounded_below_carry (P E : Z) :
  0 < P -> 0 < round_shift P E -> rounded P E <= 2 ^ 53.
Proof.
  intros HP Hk. apply rounded_le; [assumption|].
  rewrite <- Z.pow_add_r by lia.
  pose proof (Zdigits2_bounds P HP) as [_ Hd].
  apply Z.lt_le_incl. eapply Z.lt_le_trans; [exact Hd|].
  apply Z.pow_le_mono_r; [lia|].
  unfold round_shift, fexp, FloatOps.prec in *. lia.
Qed.

Lemma shr_fexp_noshift (m e : Z) :
  fexp prec emax (Zdigits2 m + e) - e <= 0 ->
  shr_fexp prec emax m e loc_Exact = (Build_shr_record m false false, e).
Proof.
  intros H. unfold shr_fexp, shr. cbn [shr_record_of_loc].
  destruct (fexp prec emax (Zdigits2 m + e) - e); try reflexivity; lia.
Qed.

Lemma shr_fexp_carry (e : Z) :
  emin <= e ->
  shr_fexp prec emax (2 ^ 53) e loc_Exact = (Build_shr_record (2 ^ 52) false false, e + 1).
Proof.
  intros He. unfold shr_fexp. change (Zdigits2 (2 ^ 53)) with 54.
  replace (fexp prec emax (54 + e) - e) with 1
    by (unfold fexp, SpecFloat.emin, FloatOps.prec, FloatOps.emax in *; lia).
  reflexivity.
Qed.

(** [binary_round_aux] on an exact positive integer [P * 2^E]. *)
Lemma binary_round_aux_exact (s : bool) (P E : Z) :
  0 < P ->
  binary_round_aux prec emax s P E loc_Exact =
    if rounded P E =? 2 ^ 53
    then SF_of s (2 ^ 52) (E + round_shift P E + 1)
    else SF_of s (rounded P E) (E + round_shift P E).
Proof.
  intros HP. unfold binary_round_aux.
  rewrite (surjective_pairing (shr_fexp prec emax P E loc_Exact)), shr_fexp_exponent.
  change (round_nearest_even _ _) with (rounded P E).
  pose proof (rounded_nearest P E HP) as (Hm0 & Hup & Hlo).
  assert (Hk : 0 < round_shift P E \/ round_shift P E = 0) by (unfold round_shift; lia).
  assert (Hmin : 0 < round_shift P E -> emin <= E + round_shift P E).
  { unfold round_shift, fexp. lia. }
  destruct (Z.eqb_spec (rounded P E) (2 ^ 53)) as [Heq|Hne].
  - assert (0 < round_shift P E).
    { destruct Hk as [|Hk0]; [assumption|exfalso].
      rewrite Hk0, Z.pow_0_r in *. assert (P = 2 ^ 53) by lia. subst P.
      revert Hk0. unfold round_shift. change (Zdigits2 (2 ^ 53)) with 54.
      unfold fexp, SpecFloat.emin, FloatOps.prec, FloatOps.emax. lia. }
    rewrite Heq, shr_fexp_carry by auto. reflexivity.
  - rewrite shr_fexp_noshift.
    + cbn [shr_m]. unfold SF_of. destruct (rounded P E); reflexivity.
    + destruct Hk as [Hk|Hk0].
      * pose proof (rounded_below_carry P E HP Hk) as Hc.
        specialize (Hmin Hk).
        destruct (Z.eq_dec (rounded P E) 0) as [H0|H0].
        { rewrite H0. cbn [Zdigits2].
          unfold fexp, SpecFloat.emin, FloatOps.prec, FloatOps.emax in *. lia. }
        assert (Zdigits2 (rounded P E) <= 53) by (apply Zdigits2_le; lia).
        unfold fexp, SpecFloat.emin, FloatOps.prec, FloatOps.emax in *. lia.
      * rewrite Hk0, Z.pow_0_r in *. replace (rounded P E) with P by lia.
        rewrite Z.add_0_r. unfold round_shift in Hk0. lia.
Qed.

Lemma SFleb_finite_pos (m1 : positive) (e1 : Z) (m2 : positive) (e2 : Z) :
  e1 < e2 \/ (e1 = e2 /\ Zpos m1 <= Zpos m2) ->
  SFleb (S754_finite false m1 e1) (S754_finite false m2 e2) = true.
Proof.
  intros H. unfold SFleb, SFcompare.
  change (Pos.compare_cont Eq m1 m2) with (Pos.compare m1 m2).
  destruct (Z.compare_spec e1 e2) as [He|He|He]; try reflexivity; [|lia].
  destruct (Pos.compare_spec m1 m2) as [Hm|Hm|Hm]; try reflexivity. lia.
Qed.

Lemma SFltb_finite_pos_inv (m1 : positive) (e1 : Z) (m2 : positive) (e2 : Z) :
  SFltb (S754_finite false m1 e1) (S754_finite false m2 e2) = true ->
  e1 < e2 \/ (e1 = e2 /\ Zpos m1 < Zpos m2).
Proof.
  unfold SFltb, SFcompare.
  change (Pos.compare_cont Eq m1 m2) with (Pos.compare m1 m2).
  destruct (Z.compare_spec e1 e2) as [He|He|He]; try discriminate; [|left; assumption].
  destruct (Pos.compare_spec m1 m2) as [Hm|Hm|Hm]; try discriminate.
  intros _. right. split; [assumption|lia].
Qed.

Lemma bounded_inv (m : positive) (e : Z) :
  SpecFloat.bounded prec emax m e = true ->
  Z.max (Zpos (digits2_pos m) + e - 53) (-1074) = e /\ e <= 971.
Proof.
  unfold SpecFloat.bounded, canonical_mantissa, fexp, SpecFloat.emin, FloatOps.prec, FloatOps.emax.
  rewrite andb_true_iff, Z.eqb_eq, Z.leb_le. lia.
Qed.

(** A product with a factor of [[0, 1)] does not exceed the other factor. *)
Lemma SFmul_unit_le (mx : positive) (ex : Z) (mB : positive) (eB : Z) :
  SpecFloat.bounded prec emax mx ex = true ->
  SpecFloat.bounded prec emax mB eB = true ->
  SFltb (S754_finite false mx ex) SF_one = true ->
  SFleb (S754_zero false) (SFmul prec emax (S754_finite false mx ex) (S754_finite false mB eB)) = true /\
  SFleb (SFmul prec emax (S754_finite false mx ex) (S754_finite false mB eB))
        (S754_finite false mB eB) = true.
Proof.
  intros Hx HB Hlt. apply bounded_inv in Hx, HB. destruct Hx as [Hcx _], HB as [HcB HeB].
  apply SFltb_finite_pos_inv in Hlt.
  pose proof (digits2_pos_bounds mx) as [Hdx_lo Hdx_hi].
  pose proof (digits2_pos_bounds mB) as [HdB_lo HdB_hi].
  set (dx := Zpos (digits2_pos mx)) in *. set (dB := Zpos (digits2_pos mB)) in *.
  assert (Hdx1 : 1 <= dx) by (unfold dx; lia).
  assert (Hunit : dx + ex <= 0).
  { destruct Hlt as [Hlt|[-> Hlt]]; [lia|].
    assert (dx <= 52) by (apply digits2_pos_le; exact Hlt). lia. }
  cbn [SFmul xorb]. rewrite Pos2Z.inj_mul.
  set (P := Zpos mx * Zpos mB). set (E := ex + eB).
  assert (HP : 0 < P) by (unfold P; lia).
  rewrite (binary_round_aux_exact false P E HP).
  pose proof (rounded_nearest P E HP) as (Hm0 & _ & _).
  assert (HdP : Zdigits2 P <= dx + dB).
  { apply Zdigits2_le; [assumption|]. rewrite Z.pow_add_r by lia.
    unfold P. apply Z.mul_lt_mono_nonneg; lia. }
  set (k := round_shift P E) in *. set (e1 := E + k).
  assert (Hk0 : 0 <= k) by (unfold k, round_shift; lia).
  assert (He1 : e1 <= eB).
  { unfold e1, k, round_shift, fexp, SpecFloat.emin, FloatOps.prec, FloatOps.emax, E. lia. }
  assert (HdB53 : dB <= 53) by lia.
  assert (HmB : Zpos mB < 2 ^ 53).
  { eapply Z.lt_le_trans; [exact HdB_hi|]. apply Z.pow_le_mono_r; lia. }
  assert (HK : rounded P E <= Zpos mB * 2 ^ (eB - e1)).
  { apply rounded_le; [assumption|]. fold k.
    rewrite <- Z.mul_assoc, <- Z.pow_add_r by lia.
    replace (eB - e1 + k) with (- ex) by (unfold e1, E; lia).
    unfold P. rewrite Z.mul_comm. apply Z.mul_le_mono_nonneg_l; [lia|].
    apply Z.lt_le_incl. eapply Z.lt_le_trans; [exact Hdx_hi|].
    apply Z.pow_le_mono_r; lia. }
  destruct (Z.eqb_spec (rounded P E) (2 ^ 53)) as [Hc|Hc].
  - assert (Hgap : 1 <= eB - e1).
    { destruct (Z.le_gt_cases 1 (eB - e1)); [assumption|exfalso].
      replace (eB - e1) with 0 in HK by lia. rewrite Z.pow_0_r in HK. lia. }
    unfold SF_of. change (2 ^ 52) with (Zpos 4503599627370496).
    replace (e1 + 1 <=? emax - prec) with true
      by (symmetry; apply Z.leb_le; unfold FloatOps.prec, FloatOps.emax; lia).
    split; [reflexivity|]. apply SFleb_finite_pos.
    destruct (Z.eq_dec (e1 + 1) eB) as [Heq|Hne]; [right|left; lia].
    split; [assumption|].
    replace (eB - e1) with 1 in HK by lia. rewrite Z.pow_1_r in HK.
    change (2 ^ 53) with 9007199254740992 in *. lia.
  - unfold SF_of. destruct (rounded P E) as [|m2|m2] eqn:Hm2; [split; reflexivity| |lia].
    replace (e1 <=? emax - prec) with true
      by (symmetry; apply Z.leb_le; unfold FloatOps.prec, FloatOps.emax; lia).
    split; [reflexivity|]. apply SFleb_finite_pos.
    destruct (Z.eq_dec e1 eB) as [Heq|Hne]; [right|left; lia].
    split; [assumption|].
    replace (eB - e1) with 0 in HK by lia. rewrite Z.pow_0_r in HK. lia.
Qed.

Lemma mul_unit_bounds (r B : float) (mB : positive) (eB : Z) :
  Prim2SF B = S754_finite false mB eB ->
  (0 <=? r)%float = true -> (r <? 1)%float = true ->
  (0 <=? r * B)%float = true /\ (r * B <=? B)%float = true.
Proof.
  intros HB H0 H1.
  pose proof (Prim2SF_valid r) as Hvr. pose proof (Prim2SF_valid B) as HvB.
  rewrite leb_spec in *. rewrite ltb_spec in H1. rewrite !leb_spec, mul_spec.
  change (Prim2SF 0) with (S754_zero false) in *.
  change (Prim2SF 1) with SF_one in *.
  rewrite HB in *. unfold SF64mul.
  destruct (Prim2SF r) as [s|s| |s mx ex]; try discriminate.
  - destruct s; split; reflexivity.
  - destruct s; discriminate.
  - destruct s; [discriminate|].
    apply SFmul_unit_le; assumption.
Qed.

Lemma digits2_pos_53 (m : positive) :
  2 ^ 52 <= Zpos m < 2 ^ 53 -> digits2_pos m = 53%positive.
Proof.
  intros [Hlo Hhi]. pose proof (digits2_pos_bounds m) as [Hdlo Hdhi].
  pose proof (digits2_pos_le m 53 Hhi) as Hle.
  assert (Hge : 53 <= Zpos (digits2_pos m)).
  { destruct (Z.le_gt_cases 53 (Zpos (digits2_pos m))); [assumption|exfalso].
    assert (2 ^ Zpos (digits2_pos m) <= 2 ^ 52) by (apply Z.pow_le_mono_r; lia). lia. }
  assert (Zpos (digits2_pos m) = 53) by lia. congruence.
Qed.

Lemma digits2_pos_53_inv (m : positive) :
  digits2_pos m = 53%positive -> 2 ^ 52 <= Zpos m < 2 ^ 53.
Proof. intros H. pose proof (digits2_pos_bounds m) as Hb. rewrite H in Hb. exact Hb. Qed.

(** The product of two normal floats that neither underflows nor overflows
    is a normal float within a relative error of [2^-53] of the exact
    product. *)
Lemma SFmul_normal (s1 s2 : bool) (mx my : positive) (ex ey : Z) :
  digits2_pos mx = 53%positive -> digits2_pos my = 53%positive ->
  -1074 <= ex + ey + 52 -> ex + ey + 54 <= 971 ->
  exists (m : positive) (e : Z),
    SFmul prec emax (S754_finite s1 mx ex) (S754_finite s2 my ey)
    = S754_finite (xorb s1 s2) m e /\
    digits2_pos m = 53%positive /\
    ex + ey + 52 <= e <= ex + ey + 54 /\
    2 ^ 53 * Z.abs (Zpos m * 2 ^ (e - (ex + ey)) - Zpos mx * Zpos my)
      <= Zpos mx * Zpos my.
Proof.
  intros Hdx Hdy Hlo Hhi.
  apply digits2_pos_53_inv in Hdx, Hdy.
  cbn [SFmul]. rewrite Pos2Z.inj_mul.
  set (P := Zpos mx * Zpos my) in *. set (E := ex + ey) in *.
  assert (HPlo : 2 ^ 104 <= P).
  { change (2 ^ 104) with (2 ^ 52 * 2 ^ 52). unfold P. apply Z.mul_le_mono_nonneg; lia. }
  assert (HPhi : P < 2 ^ 106).
  { change (2 ^ 106) with (2 ^ 53 * 2 ^ 53). unfold P. apply Z.mul_lt_mono_nonneg; lia. }
  assert (HP : 0 < P) by lia.
  pose proof (Zdigits2_bounds P HP) as [HdPlo HdPhi].
  assert (HdP : 105 <= Zdigits2 P <= 106).
  { split; [|apply Zdigits2_le; assumption].
    destruct (Z.le_gt_cases 105 (Zdigits2 P)); [assumption|exfalso].
    assert (2 ^ Zdigits2 P <= 2 ^ 104).
    { apply Z.pow_le_mono_r; lia. }
    lia. }
  rewrite (binary_round_aux_exact (xorb s1 s2) P E HP).
  pose proof (rounded_nearest P E HP) as (Hm0 & Hup & Hdn).
  assert (Hk : round_shift P E = Zdigits2 P - 53).
  { unfold round_shift, fexp, SpecFloat.emin, FloatOps.prec, FloatOps.emax. lia. }
  set (k := round_shift P E) in *.
  assert (Hpow : 2 ^ (Zdigits2 P - 1) = 2 ^ 52 * 2 ^ k /\ 2 ^ Zdigits2 P = 2 ^ 53 * 2 ^ k).
  { rewrite <- !Z.pow_add_r by lia. split; f_equal; lia. }
  destruct Hpow as [Hp1 Hp2]. rewrite Hp1 in HdPlo. rewrite Hp2 in HdPhi.
  assert (HX : 0 < 2 ^ k) by (apply Z.pow_pos_nonneg; lia).
  assert (Hge : 2 ^ 52 <= rounded P E) by (apply rounded_ge; [assumption|exact HdPlo]).
  assert (Hle : rounded P E <= 2 ^ 53) by (apply rounded_le; [assumption|fold k; lia]).
  set (X := 2 ^ k) in *.
  destruct (Z.eqb_spec (rounded P E) (2 ^ 53)) as [Hc|Hc].
  - exists 4503599627370496%positive, (E + k + 1).
    unfold SF_of. change (2 ^ 52) with (Zpos 4503599627370496) at 1.
    replace (E + k + 1 <=? emax - prec) with true
      by (symmetry; apply Z.leb_le; unfold FloatOps.prec, FloatOps.emax; lia).
    split; [reflexivity|]. split; [reflexivity|]. split; [lia|].
    replace (E + k + 1 - E) with (k + 1) by lia.
    rewrite Z.pow_add_r, Z.pow_1_r by lia. fold X.
    replace (Zpos 4503599627370496 * (X * 2)) with (rounded P E * X)
      by (rewrite Hc; change (2 ^ 53) with (Zpos 4503599627370496 * 2); ring).
    change (2 ^ 53) with 9007199254740992 in *. change (2 ^ 52) with 4503599627370496 in *.
    lia.
  - destruct (rounded P E) as [|m2|m2] eqn:Hm2; [lia| |lia].
    exists m2, (E + k). unfold SF_of.
    replace (E + k <=? emax - prec) with true
      by (symmetry; apply Z.leb_le; unfold FloatOps.prec, FloatOps.emax; lia).
    split; [reflexivity|]. split; [apply digits2_pos_53; lia|]. split; [lia|].
    replace (E + k - E) with k by lia. fold X.
    change (2 ^ 53) with 9007199254740992 in *. change (2 ^ 52) with 4503599627370496 in *.
    lia.
Qed.

(** ** Real values of floats and the error of a product *)

Lemma IZR_pow2 (k : Z) : 0 <= k -> IZR (2 ^ k) = powerRZ 2 k.
Proof.
  intros Hk. rewrite <- (Z2Nat.id k) by assumption.
  rewrite <- pow_IZR, pow_powerRZ. reflexivity.
Qed.

Lemma SFmul_normal_R (s1 s2 : bool) (mx my : positive) (ex ey : Z) :
  digits2_pos mx = 53%positive -> digits2_pos my = 53%positive ->
  -1074 <= ex + ey + 52 -> ex + ey + 54 <= 971 ->
  exists (m : positive) (e : Z),
    SFmul prec emax (S754_finite s1 mx ex) (S754_finite s2 my ey)
    = S754_finite (xorb s1 s2) m e /\
    digits2_pos m = 53%positive /\
    ex + ey + 52 <= e <= ex + ey + 54 /\
    (Rabs (IZR (Zpos m) * powerRZ 2 e
           - (IZR (Zpos mx) * powerRZ 2 ex) * (IZR (Zpos my) * powerRZ 2 ey))
     <= u64 * ((IZR (Zpos mx) * powerRZ 2 ex) * (IZR (Zpos my) * powerRZ 2 ey)))%R.
Proof.
  intros Hdx Hdy Hlo Hhi.
  destruct (SFmul_normal s1 s2 mx my ex ey Hdx Hdy Hlo Hhi) as (m & e & Hmul & Hd & He & Herr).
  exists m, e. repeat split; try assumption; try lia.
  set (E := ex + ey) in *. set (P := Zpos mx * Zpos my) in *.
  assert (H2 : (2 <> 0)%R) by lra.
  assert (HE : (0 < powerRZ 2 E)%R) by (apply powerRZ_lt; lra).
  replace ((IZR (Zpos mx) * powerRZ 2 ex) * (IZR (Zpos my) * powerRZ 2 ey))%R
    with (IZR P * powerRZ 2 E)%R
    by (unfold P, E; rewrite mult_IZR, powerRZ_add by assumption; ring).
  replace (IZR (Zpos m) * powerRZ 2 e)%R
    with (IZR (Zpos m * 2 ^ (e - E)) * powerRZ 2 E)%R.
  2:{ rewrite mult_IZR, IZR_pow2 by lia. rewrite Rmult_assoc, <- powerRZ_add by assumption.
      f_equal. f_equal. lia. }
  rewrite <- Rmult_minus_distr_r, <- minus_IZR, Rabs_mult, <- abs_IZR.
  rewrite (Rabs_pos_eq (powerRZ 2 E)) by lra.
  rewrite <- Rmult_assoc. apply Rmult_le_compat_r; [lra|].
  apply IZR_le in Herr. rewrite mult_IZR, IZR_pow2 in Herr by lia.
  unfold u64.
  assert (H53 : (0 < powerRZ 2 53)%R) by (apply powerRZ_lt; lra).
  apply (Rmult_le_reg_l (powerRZ 2 53)); [assumption|].
  rewrite <- Rmult_assoc, <- powerRZ_add by assumption.
  change (53 + -53) with 0. rewrite powerRZ_O, Rmult_1_l. exact Herr.
Qed.

Lemma valid_normal_digits (s : bool) (m : positive) (e : Z) :
  valid_binary (S754_finite s m e) = true -> -1074 < e -> digits2_pos m = 53%positive.
Proof.
  intros Hv He. cbn [SpecFloat.valid_binary] in Hv. apply bounded_inv in Hv as [Hc _].
  assert (Zpos (digits2_pos m) = 53) by lia. congruence.
Qed.

(** The product of two normal floats, away from underflow and overflow. *)
Lemma mul_error (a b : float) (lo1 hi1 lo2 hi2 : Z) :
  exponent_within a lo1 hi1 -> exponent_within b lo2 hi2 ->
  -1074 < lo1 + lo2 + 52 -> hi1 + hi2 + 54 <= 971 ->
  exponent_within (a * b) (lo1 + lo2 + 52) (hi1 + hi2 + 54) /\
  (Rabs (Fmag (a * b) - Fmag a * Fmag b) <= u64 * (Fmag a * Fmag b))%R.
Proof.
  unfold exponent_within, Fmag, SFmag. intros Ha Hb Hlo Hhi.
  pose proof (Prim2SF_valid a) as Hva. pose proof (Prim2SF_valid b) as Hvb.
  rewrite mul_spec. unfold SF64mul.
  destruct (Prim2SF a) as [| | |s1 mx ex]; try contradiction.
  destruct (Prim2SF b) as [| | |s2 my ey]; try contradiction.
  destruct Ha as [Ha1 Ha2], Hb as [Hb1 Hb2].
  destruct (SFmul_normal_R s1 s2 mx my ex ey) as (m & e & -> & _ & He & Herr);
    [eapply valid_normal_digits; eassumption..|lia|lia|].
  split; [lia|exact Herr].
Qed.

Lemma Fmag_nonneg (f : float) : (0 <= Fmag f)%R.
Proof.
  unfold Fmag, SFmag. destruct (Prim2SF f); try lra.
  apply Rmult_le_pos; [apply IZR_le; lia|apply powerRZ_le; lra].
Qed.

Lemma u64_value : u64 = (/ 9007199254740992)%R.
Proof.
  unfold u64. change (-53) with (- (53)). rewrite powerRZ_neg'. f_equal.
  rewrite <- IZR_pow2 by lia. reflexivity.
Qed.

Lemma Rabs_bounds (a b : R) : (Rabs a <= b)%R -> (- b <= a <= b)%R.
Proof. unfold Rabs. destruct (Rcase_abs a); lra. Qed.

(** Three roundings and the rounding of [1/sqrt 2] cost at most [2^-50]. *)
Lemma fair_arith (S C T V D D1 r : R) :
  (0 <= S)%R -> (0 <= T)%R -> (0 <= C)%R -> (0 <= r)%R ->
  (r * C <= 1)%R -> (1 - u64 <= r * C)%R ->
  (Rabs (V - S * C) <= u64 * (S * C))%R ->
  (Rabs (D - V * T) <= u64 * (V * T))%R ->
  (Rabs (D1 - S * T) <= u64 * (S * T))%R ->
  (Rabs (r * D - D1) <= 8 * u64 * D1)%R.
Proof.
  intros HS HT HC Hr Hc1 Hc2 HV HD HD1. rewrite u64_value in *.
  set (u := (/ 9007199254740992)%R) in *.
  assert (Hu : (0 < u < 1 / 1000)%R) by (unfold u; lra).
  apply Rabs_bounds in HV, HD, HD1.
  assert (HSC : (0 <= S * C)%R) by (apply Rmult_le_pos; assumption).
  assert (HX : (0 <= S * T)%R) by (apply Rmult_le_pos; assumption).
  assert (HV0 : (0 <= V)%R) by nra.
  assert (HVT : (0 <= V * T)%R) by (apply Rmult_le_pos; assumption).
  assert (HD0 : (0 <= D)%R) by nra.
  set (X := (S * T)%R) in *.
  (* bounds of r * D by X *)
  assert (HVTu : (V * T <= (1 + u) * (C * X))%R).
  { replace ((1 + u) * (C * X))%R with (((1 + u) * (S * C)) * T)%R by (unfold X; ring).
    apply Rmult_le_compat_r; [assumption|lra]. }
  assert (HVTl : ((1 - u) * (C * X) <= V * T)%R).
  { replace ((1 - u) * (C * X))%R with (((1 - u) * (S * C)) * T)%R by (unfold X; ring).
    apply Rmult_le_compat_r; [assumption|lra]. }
  assert (HCX : (0 <= C * X)%R) by (apply Rmult_le_pos; assumption).
  assert (HDu : (D <= (1 + u) * (1 + u) * (C * X))%R) by nra.
  assert (HDl : ((1 - u) * (1 - u) * (C * X) <= D)%R) by nra.
  assert (HrDu : (r * D <= (1 + u) * (1 + u) * X)%R).
  { apply Rle_trans with (r * ((1 + u) * (1 + u) * (C * X)))%R;
      [apply Rmult_le_compat_l; assumption|].
    replace (r * ((1 + u) * (1 + u) * (C * X)))%R with ((r * C) * ((1 + u) * (1 + u) * X))%R by ring.
    rewrite <- (Rmult_1_l ((1 + u) * (1 + u) * X)) at 2.
    apply Rmult_le_compat_r; [|assumption].
    apply Rmult_le_pos; [nra|assumption]. }
  assert (HrDl : ((1 - u) * (1 - u) * (1 - u) * X <= r * D)%R).
  { apply Rle_trans with (r * ((1 - u) * (1 - u) * (C * X)))%R;
      [|apply Rmult_le_compat_l; assumption].
    replace (r * ((1 - u) * (1 - u) * (C * X)))%R with ((r * C) * ((1 - u) * (1 - u) * X))%R by ring.
    replace ((1 - u) * (1 - u) * (1 - u) * X)%R with ((1 - u) * ((1 - u) * (1 - u) * X))%R by ring.
    apply Rmult_le_compat_r; [|assumption].
    apply Rmult_le_pos; [nra|assumption]. }
  apply Rabs_le. unfold u in *. split; nra.
Qed.

Lemma Fmag_inv_sqrt2 : Fmag inv_sqrt2 = (6369051672525772 / 9007199254740992)%R.
Proof.
  unfold Fmag. change (Prim2SF inv_sqrt2) with (S754_finite false 6369051672525772 (-53)).
  unfold SFmag. fold u64. rewrite u64_value. reflexivity.
Qed.

(** The double [inv_sqrt2] is [1/sqrt 2] rounded down, within one unit
    roundoff. *)
Lemma inv_sqrt2_close :
  (sqrt 2 * Fmag inv_sqrt2 <= 1)%R /\ (1 - u64 <= sqrt 2 * Fmag inv_sqrt2)%R.
Proof.
  rewrite Fmag_inv_sqrt2, u64_value.
  assert (Hr : (sqrt 2 * sqrt 2 = 2)%R) by (apply sqrt_sqrt; lra).
  assert (Hr0 : (0 <= sqrt 2)%R) by apply sqrt_pos.
  set (r := sqrt 2) in *.
  split; nra.
Qed.

(** The magnitude of a product does not depend on the signs of its factors. *)
Lemma SFmag_mul_sign (s1 s1' s2 s2' : bool) (mx my : positive) (ex ey : Z) :
  SFmag (SFmul prec emax (S754_finite s1 mx ex) (S754_finite s2 my ey))
  = SFmag (SFmul prec emax (S754_finite s1' mx ex) (S754_finite s2' my ey)).
Proof.
  cbn [SFmul]. rewrite !binary_round_aux_exact by lia.
  destruct (_ =? _); unfold SF_of;
    repeat match goal with |- context [match ?t with _ => _ end] => destruct t end;
    reflexivity.
Qed.

(** [0.0 - s] and [0.0 + s] for a finite non-zero [s]. *)
Lemma zero_sub_finite (s : float) (sg : bool) (m : positive) (e : Z) :
  Prim2SF s = S754_finite sg m e -> Prim2SF (0 - s) = S754_finite (negb sg) m e.
Proof. intros H. rewrite sub_spec, H. reflexivity. Qed.

Lemma zero_add_finite (s : float) (sg : bool) (m : positive) (e : Z) :
  Prim2SF s = S754_finite sg m e -> Prim2SF (0 + s) = S754_finite sg m e.
Proof. intros H. rewrite add_spec, H. reflexivity. Qed.

Lemma signed_speed_finite (s v : float) (sg : bool) (m : positive) (e : Z) :
  signed_speed s v -> Prim2SF s = S754_finite sg m e ->
  exists sg', Prim2SF v = S754_finite sg' m e.
Proof.
  intros [-> | ->] H; eexists; [apply zero_sub_finite|apply zero_add_finite]; exact H.
Qed.

Lemma Fmag_mul_congr (a a' b b' : float) (s1 s1' s2 s2' : bool) (mx my : positive) (ex ey : Z) :
  Prim2SF a = S754_finite s1 mx ex -> Prim2SF a' = S754_finite s1' mx ex ->
  Prim2SF b = S754_finite s2 my ey -> Prim2SF b' = S754_finite s2' my ey ->
  Fmag (a * b) = Fmag (a' * b').
Proof.
  intros Ha Ha' Hb Hb'. unfold Fmag. rewrite !mul_spec, Ha, Ha', Hb, Hb'.
  apply SFmag_mul_sign.
Qed.

(** The pre-clamp displacement of a diagonal step against that of a
    single-axis step, for the same speed and [dt]. *)
Lemma diagonal_step_error (s dt vx vy w : float) :
  moderate s -> moderate dt ->
  signed_speed s vx -> signed_speed s vy -> signed_speed s w ->
  Fmag (vx * inv_sqrt2 * dt) = Fmag (vy * inv_sqrt2 * dt) /\
  (Rabs (sqrt 2 * Fmag (vx * inv_sqrt2 * dt) - Fmag (w * dt)) <= 8 * u64 * Fmag (w * dt))%R.
Proof.
  intros Hs Hdt Hvx Hvy Hw.
  unfold moderate, exponent_within in Hs.
  destruct (Prim2SF s) as [| | |sg m e] eqn:HSF; try contradiction.
  destruct (signed_speed_finite s vx sg m e Hvx HSF) as [sx Hx].
  destruct (signed_speed_finite s vy sg m e Hvy HSF) as [sy Hy].
  destruct (signed_speed_finite s w sg m e Hw HSF) as [sw Hsw].
  assert (Hmx : exponent_within vx (-553) 447) by (unfold exponent_within; rewrite Hx; exact Hs).
  assert (Hmw : exponent_within w (-553) 447) by (unfold exponent_within; rewrite Hsw; exact Hs).
  assert (Hc : exponent_within inv_sqrt2 (-53) (-53)).
  { unfold exponent_within.
    change (Prim2SF inv_sqrt2) with (S754_finite false 6369051672525772 (-53)).
    cbv beta iota. lia. }
  destruct (mul_error vx inv_sqrt2 _ _ _ _ Hmx Hc) as [HeV HV]; [lia..|].
  destruct (mul_error (vx * inv_sqrt2) dt _ _ _ _ HeV Hdt) as [_ HD]; [lia..|].
  destruct (mul_error w dt _ _ _ _ Hmw Hdt) as [_ HD1]; [lia..|].
  assert (HFx : Fmag vx = Fmag s) by (unfold Fmag; rewrite Hx, HSF; reflexivity).
  assert (HFw : Fmag w = Fmag s) by (unfold Fmag; rewrite Hsw, HSF; reflexivity).
  rewrite HFx in HV. rewrite HFw in HD1.
  split.
  - assert (Fmag (vx * inv_sqrt2) = Fmag (vy * inv_sqrt2)) as Hv.
    { eapply Fmag_mul_congr; [exact Hx|exact Hy|reflexivity|reflexivity]. }
    unfold moderate, exponent_within in Hdt.
    destruct (Prim2SF dt) as [| | |st mt et] eqn:Hdt'; try contradiction.
    unfold exponent_within in HeV.
    destruct (Prim2SF (vx * inv_sqrt2)) as [| | |s1 m1 e1] eqn:H1; try contradiction.
    assert (exists s2, Prim2SF (vy * inv_sqrt2) = S754_finite s2 m1 e1) as [s2 H2].
    { revert H1. rewrite !mul_spec, Hx, Hy.
      change (Prim2SF inv_sqrt2) with (S754_finite false 6369051672525772 (-53)).
      unfold SF64mul. cbn [SFmul]. rewrite !binary_round_aux_exact by lia.
      destruct (_ =? _); unfold SF_of;
        repeat match goal with |- context [match ?t with _ => _ end] => destruct t end;
        try discriminate; intros [= <- <- <-]; eexists; reflexivity. }
    eapply Fmag_mul_congr; [exact H1|exact H2|exact Hdt'|exact Hdt'].
  - destruct inv_sqrt2_close as [Hc1 Hc2].
    apply (fair_arith (Fmag s) (Fmag inv_sqrt2) (Fmag dt) (Fmag (vx * inv_sqrt2)));
      try apply Fmag_nonneg; try assumption. apply sqrt_pos.
Qed.

(** ** The velocity of [integrate] *)

Lemma SFeqb_refl_finite (sg : bool) (m : positive) (e : Z) :
  SFeqb (S754_finite sg m e) (S754_finite sg m e) = true.
Proof.
  unfold SFeqb, SFcompare. change (Pos.compare_cont Eq m m) with (Pos.compare m m).
  rewrite Z.compare_refl, Pos.compare_refl. destruct sg; reflexivity.
Qed.

Lemma SFadd_opp_cancel (sg : bool) (m : positive) (e : Z) :
  SFadd prec emax (S754_finite (negb sg) m e) (S754_finite sg m e) = S754_zero false.
Proof.
  cbn [SFadd]. rewrite Z.min_id. unfold shl_align. rewrite Z.sub_diag. cbn [fst].
  destruct sg; cbn [negb cond_Zopp];
    [rewrite Z.add_opp_diag_r|rewrite Z.add_opp_diag_l]; reflexivity.
Qed.

Lemma zero_sub_add_finite (s : float) (sg : bool) (m : positive) (e : Z) :
  Prim2SF s = S754_finite sg m e -> Prim2SF (0 - s + s) = S754_zero false.
Proof.
  intros H. rewrite add_spec, (zero_sub_finite s sg m e H), H. apply SFadd_opp_cancel.
Qed.

(** The four cases of one axis, for a finite speed. *)
Lemma axis_velocity_finite (s : float) :
  finite s ->
  axis_velocity false false s = 0%float /\
  feq (axis_velocity true false s) (- s) /\
  feq (axis_velocity false true s) s /\
  feq (axis_velocity true true s) 0.
Proof.
  unfold finite, feq, axis_velocity. intros Hf. split; [reflexivity|].
  rewrite !FloatAxioms.eqb_spec, opp_spec, !add_spec, !sub_spec.
  change (Prim2SF 0) with (S754_zero false).
  destruct (Prim2SF s) as [sz| | |sg m e] eqn:Hs; try contradiction.
  - destruct sz; repeat split; reflexivity.
  - split; [apply SFeqb_refl_finite|]. split; [apply SFeqb_refl_finite|].
    change (SF64sub (S754_zero false) (S754_finite sg m e)) with (S754_finite (negb sg) m e).
    unfold SF64add. rewrite SFadd_opp_cancel. reflexivity.
Qed.

(** A driven axis has velocity [0.0 - s] or [0.0 + s]; an idle axis (no flag,
    or both) has velocity [+0.0]. *)
Lemma axis_velocity_moderate (neg pos : bool) (s : float) :
  moderate s ->
  (xorb neg pos = true ->
     signed_speed s (axis_velocity neg pos s) /\ fneq (axis_velocity neg pos s) 0 = true) /\
  (xorb neg pos = false -> Prim2SF (axis_velocity neg pos s) = S754_zero false).
Proof.
  unfold moderate, exponent_within. intros Hs.
  destruct (Prim2SF s) as [| | |sg m e] eqn:HSF; try contradiction.
  unfold axis_velocity, signed_speed, fneq.
  destruct neg, pos; cbn [xorb]; split; intros Hx; try discriminate.
  - apply (zero_sub_add_finite s sg m e HSF).
  - split; [left; reflexivity|].
    rewrite FloatAxioms.eqb_spec, (zero_sub_finite s sg m e HSF). destruct sg; reflexivity.
  - split; [right; reflexivity|].
    rewrite FloatAxioms.eqb_spec, (zero_add_finite s sg m e HSF). destruct sg; reflexivity.
  - reflexivity.
Qed.

Lemma Fmag_pos (f : float) (lo hi : Z) : exponent_within f lo hi -> (0 < Fmag f)%R.
Proof.
  unfold exponent_within, Fmag, SFmag. destruct (Prim2SF f); try contradiction.
  intros _. apply Rmult_lt_0_compat; [apply IZR_lt; lia|apply powerRZ_lt; lra].
Qed.

Lemma Fmag_zero_mul (z dt : float) :
  Prim2SF z = S754_zero false -> moderate dt -> Fmag (z * dt) = 0%R.
Proof.
  unfold moderate, exponent_within, Fmag. intros Hz Hdt. rewrite mul_spec, Hz.
  destruct (Prim2SF dt); try contradiction. reflexivity.
Qed.

Lemma fneq_zero (z : float) : Prim2SF z = S754_zero false -> fneq z 0 = false.
Proof. intros Hz. unfold fneq. rewrite FloatAxioms.eqb_spec, Hz. reflexivity. Qed.

(** A diagonal step is as long as a single-axis step, up to the roundings of
    the products. *)
Lemma diagonal_step_fair (p q : Player) (dt : float) :
  moderate (speed p) -> speed q = speed p -> moderate dt ->
  diagonal (input p) = true -> single_axis (input q) = true ->
  (Rabs (step_magnitude p dt - step_magnitude q dt) <= 8 * u64 * step_magnitude q dt)%R /\
  (0 < step_magnitude q dt)%R /\
  (step_magnitude p dt < sqrt 2 * step_magnitude q dt)%R.
Proof.
  intros Hs Hq Hdt Hdiag Hsingle.
  unfold diagonal in Hdiag. apply andb_true_iff in Hdiag as [Hh Hv].
  destruct (axis_velocity_moderate (left (input p)) (right (input p)) (speed p) Hs)
    as [Hpx _]. destruct (Hpx Hh) as [Hsx Hnx].
  destruct (axis_velocity_moderate (up (input p)) (down (input p)) (speed p) Hs)
    as [Hpy _]. destruct (Hpy Hv) as [Hsy Hny].
  assert (Hvp : velocity p
                = ((axis_velocity (left (input p)) (right (input p)) (speed p) * inv_sqrt2)%float,
                   (axis_velocity (up (input p)) (down (input p)) (speed p) * inv_sqrt2)%float)).
  { unfold velocity. rewrite Hnx, Hny. reflexivity. }
  set (vx := axis_velocity (left (input p)) (right (input p)) (speed p)) in *.
  set (vy := axis_velocity (up (input p)) (down (input p)) (speed p)) in *.
  assert (Haxis : exists w, signed_speed (speed p) w /\
                    step_magnitude q dt = Fmag (w * dt) /\
                    exponent_within (w * dt) (-553 + -553 + 52) (447 + 447 + 54)).
  { unfold single_axis in Hsingle. rewrite <- Hq in Hs.
    destruct (axis_velocity_moderate (left (input q)) (right (input q)) (speed q) Hs)
      as [Hqx Hqx0].
    destruct (axis_velocity_moderate (up (input q)) (down (input q)) (speed q) Hs)
      as [Hqy Hqy0].
    unfold step_magnitude, displacement_magnitude, velocity.
    set (wx := axis_velocity (left (input q)) (right (input q)) (speed q)) in *.
    set (wy := axis_velocity (up (input q)) (down (input q)) (speed q)) in *.
    rewrite Hq in *.
    destruct (xorb (left (input q)) (right (input q))) eqn:Eh;
      destruct (xorb (up (input q)) (down (input q))) eqn:Ev; try discriminate.
    - destruct (Hqx eq_refl) as [Hw Hnw]. specialize (Hqy0 eq_refl).
      exists wx. split; [exact Hw|].
      rewrite (fneq_zero wy Hqy0), andb_false_r. cbn [fst snd].
      rewrite (Fmag_zero_mul wy dt Hqy0 Hdt), Rmult_0_l, Rplus_0_r.
      split; [apply sqrt_square, Fmag_nonneg|].
      destruct Hw as [-> | ->]; unfold moderate, exponent_within in Hs |- *.
      all: destruct (Prim2SF (speed p)) as [| | |sg m e] eqn:HSF; try contradiction.
      + eapply mul_error; [|exact Hdt|lia|lia].
        unfold exponent_within. rewrite (zero_sub_finite _ sg m e HSF). exact Hs.
      + eapply mul_error; [|exact Hdt|lia|lia].
        unfold exponent_within. rewrite (zero_add_finite _ sg m e HSF). exact Hs.
    - destruct (Hqy eq_refl) as [Hw Hnw]. specialize (Hqx0 eq_refl).
      exists wy. split; [exact Hw|].
      rewrite (fneq_zero wx Hqx0), andb_false_l. cbn [fst snd].
      rewrite (Fmag_zero_mul wx dt Hqx0 Hdt), Rmult_0_l, Rplus_0_l.
      split; [apply sqrt_square, Fmag_nonneg|].
      destruct Hw as [-> | ->]; unfold moderate, exponent_within in Hs |- *.
      all: destruct (Prim2SF (speed p)) as [| | |sg m e] eqn:HSF; try contradiction.
      + eapply mul_error; [|exact Hdt|lia|lia].
        unfold exponent_within. rewrite (zero_sub_finite _ sg m e HSF). exact Hs.
      + eapply mul_error; [|exact Hdt|lia|lia].
        unfold exponent_within. rewrite (zero_add_finite _ sg m e HSF). exact Hs. }
  destruct Haxis as (w & Hw & -> & Hwe).
  destruct (diagonal_step_error (speed p) dt vx vy w Hs Hdt Hsx Hsy Hw) as [Heq Herr].
  assert (Hdiag : step_magnitude p dt = (sqrt 2 * Fmag (vx * inv_sqrt2 * dt))%R).
  { unfold step_magnitude, displacement_magnitude. rewrite Hvp. cbn [fst snd]. rewrite <- Heq.
    set (D := Fmag (vx * inv_sqrt2 * dt)).
    replace (D * D + D * D)%R with (2 * (D * D))%R by ring.
    rewrite sqrt_mult by (try lra; apply Rle_0_sqr).
    rewrite sqrt_square by apply Fmag_nonneg. reflexivity. }
  rewrite Hdiag. pose proof (Fmag_pos _ _ _ Hwe) as Hpos.
  split; [exact Herr|]. split; [exact Hpos|].
  apply Rabs_bounds in Herr. rewrite u64_value in Herr.
  assert (Hr : (sqrt 2 * sqrt 2 = 2)%R) by (apply sqrt_sqrt; lra).
  assert (Hr0 : (0 <= sqrt 2)%R) by apply sqrt_pos.
  set (r := sqrt 2) in *. set (D1 := Fmag (w * dt)) in *.
  assert (Hr14 : (14 / 10 < r)%R) by nra.
  nra.
Qed.

Lemma new_player_in_bounds (r : Rand) :
  unit_draw (x_draw r) -> unit_draw (y_draw r) -> in_bounds (new_player r).
Proof.
  intros [Hx0 Hx1] [Hy0 Hy1]. unfold in_bounds, new_player; cbn [x y].
  destruct (mul_unit_bounds (x_draw r) X_MAX 8180366510653440 (-43) eq_refl Hx0 Hx1).
  destruct (mul_unit_bounds (y_draw r) Y_MAX 4802666790125568 (-43) eq_refl Hy0 Hy1).
  unfold fle. auto.
Qed.

Lemma _clamp_cases (v lo hi : float) :
  ((lo <? v)%float = true -> (v <? hi)%float = true -> _clamp v lo hi = v) /\
  ((v <? hi)%float = true -> (lo <? v)%float = false -> _clamp v lo hi = lo) /\
  ((v <? hi)%float = false -> (lo <? hi)%float = true -> _clamp v lo hi = hi).
Proof.
  unfold _clamp, py_max, py_min. repeat split.
  - intros H1 H2. rewrite H2, H1. reflexivity.
  - intros H1 H2. rewrite H1, H2. reflexivity.
  - intros H1 H2. rewrite H1, H2. reflexivity.
Qed.

Lemma powerRZ_2_neg (k : Z) : 0 <= k -> powerRZ 2 (- k) = (/ IZR (2 ^ k))%R.
Proof. intros Hk. rewrite powerRZ_neg', IZR_pow2 by assumption. reflexivity. Qed.

Lemma eight_u64 : (8 * u64 = powerRZ 2 (-50))%R.
Proof.
  rewrite u64_value. change (-50) with (- (50)). rewrite powerRZ_2_neg by lia.
  change (2 ^ 50) with 1125899906842624. lra.
Qed.

Section Properties.

Variable env : Env.

(** ** Running the primitives *)

Lemma bind_ok {A B} (m : M A) (k : A -> M B) h hist a h' em :
  m h hist = mkResult (Ok a) h' em ->
  bind m k h hist =
    mkResult (res (k a h' (hist ++ em))) (hub_of (k a h' (hist ++ em)))
             (em ++ emitted (k a h' (hist ++ em))).
Proof. unfold bind. intros ->. reflexivity. Qed.

Lemma bind_raise {A B} (m : M A) (k : A -> M B) h hist e h' em :
  m h hist = mkResult (Raise e) h' em ->
  bind m k h hist = mkResult (Raise e) h' em.
Proof. unfold bind. intros ->. reflexivity. Qed.

Lemma result_eta {A} (r : Result A) : mkResult (res r) (hub_of r) (emitted r) = r.
Proof. destruct r; reflexivity. Qed.

Lemma bind_ret {A B} (a : A) (k : A -> M B) h hist : bind (ret a) k h hist = k a h hist.
Proof. unfold bind, ret; cbn. rewrite app_nil_r. apply result_eta. Qed.

Lemma bind_get {B} (k : Hub -> M B) h hist : bind get k h hist = k h h hist.
Proof. unfold bind, get; cbn. rewrite app_nil_r. apply result_eta. Qed.

Lemma bind_history {B} (k : list event -> M B) h hist :
  bind history k h hist = k hist h hist.
Proof. unfold bind, history; cbn. rewrite app_nil_r. apply result_eta. Qed.

Lemma bind_put {B} (k : unit -> M B) h' h hist : bind (put h') k h hist = k tt h' hist.
Proof. unfold bind, put; cbn. rewrite app_nil_r. apply result_eta. Qed.

Lemma bind_emit {B} (k : unit -> M B) e h hist :
  bind (emit e) k h hist
  = mkResult (res (k tt h (hist ++ [e]))) (hub_of (k tt h (hist ++ [e])))
      (e :: emitted (k tt h (hist ++ [e]))).
Proof. reflexivity. Qed.

Lemma bind_raise' {A B} (e : exn) (k : A -> M B) h hist :
  bind (raise e) k h hist = mkResult (Raise e) h [].
Proof. reflexivity. Qed.

Lemma bind_assoc {A B C} (m : M A) (f : A -> M B) (g : B -> M C) h hist :
  bind (bind m f) g h hist = bind m (fun a => bind (f a) g) h hist.
Proof.
  unfold bind. destruct (m h hist) as [[a|e] h1 em1]; cbn; [|reflexivity].
  destruct (f a h1 (hist ++ em1)) as [[b|e] h2 em2]; cbn; [|reflexivity].
  rewrite !app_assoc. reflexivity.
Qed.

Lemma with_lock_run {A} (body : M A) h hist :
  with_lock body h hist
  = mkResult (res (body h (hist ++ [EvAcquire]))) (hub_of (body h (hist ++ [EvAcquire])))
      (EvAcquire :: emitted (body h (hist ++ [EvAcquire])) ++ [EvRelease]).
Proof. reflexivity. Qed.

Ltac step_m :=
  repeat first
    [ rewrite bind_assoc | rewrite bind_get | rewrite bind_put | rewrite bind_ret
    | rewrite bind_history | rewrite bind_emit | rewrite bind_raise'
    | rewrite with_lock_run ]; cbn [res hub_of emitted].

(** [_safe_send] as one task of a [gather]: whatever the transport answers,
    the task ends with a result, the hub is as before, one attempt was made. *)
Lemma gathered_safe_send ws msg h hist :
  exists r,
    try_except (_safe_send env ws msg ;;; ret None) (fun e => ret (Some e)) h hist
    = mkResult (Ok r) h [EvSend ws msg].
Proof.
  unfold _safe_send, try_except, send_text, bind, history, emit, ret, raise; cbn.
  destruct (send_fails env hist ws msg) as [e|]; cbn.
  - destruct (is_Exception e); cbn; eexists; reflexivity.
  - eexists; reflexivity.
Qed.

(** A gathered fan-out of [_safe_send] returns normally, leaves the hub as it
    was and makes one attempt per target, in order. *)
Lemma gather_safe_send msg (l : list (string * WebSocket)) h hist :
  exists rs,
    gather ((fun kv => _safe_send env kv.2 msg) <$> l) h hist
    = mkResult (Ok rs) h ((fun kv => EvSend kv.2 msg) <$> l).
Proof.
  revert hist. induction l as [|[k ws] l IH]; intros hist.
  - eexists; reflexivity.
  - cbn [fmap list_fmap gather].
    destruct (gathered_safe_send ws msg h hist) as [r Hr].
    destruct (IH (hist ++ [EvSend ws msg])) as [rs Hrs].
    exists (r :: rs).
    rewrite (bind_ok _ _ _ _ _ _ _ Hr).
    rewrite (bind_ok _ _ _ _ _ _ _ Hrs). cbn.
    rewrite app_nil_r. reflexivity.
Qed.

(** ** What each operation does *)

Lemma _broadcast_state_run h hist :
  _broadcast_state env h hist
  = mkResult (Ok tt) h
      (EvRead RPlayers :: EvRead RSockets
         :: sends (MsgState (snapshots h)) (map_to_list (sockets h))).
Proof.
  unfold _broadcast_state.
  destruct (gather_safe_send (MsgState (snapshots h)) (map_to_list (sockets h)) h
              ((hist ++ [EvRead RPlayers]) ++ [EvRead RSockets])) as [rs Hrs].
  step_m. rewrite (bind_ok _ _ _ _ _ _ _ Hrs). cbn.
  rewrite app_nil_r. reflexivity.
Qed.

Lemma _broadcast_event_run ev exclude h hist :
  _broadcast_event env ev exclude h hist
  = mkResult (Ok tt) h (EvRead RSockets :: sends ev (targets exclude h)).
Proof.
  unfold _broadcast_event.
  destruct (gather_safe_send ev (targets exclude h) h (hist ++ [EvRead RSockets]))
    as [rs Hrs].
  unfold targets in Hrs.
  step_m. rewrite (bind_ok _ _ _ _ _ _ _ Hrs). cbn.
  rewrite app_nil_r. reflexivity.
Qed.

Lemma _step_run dt h hist :
  _step dt h hist
  = mkResult (Ok tt) (set_players h ((fun p => integrate p dt) <$> players h))
      [EvAcquire; EvRead RPlayers; EvWrite RPlayers; EvRelease].
Proof. reflexivity. Qed.

Lemma disconnect_run pid h hist :
  disconnect env pid h hist
  = mkResult (Ok tt) (removed pid h)
      ([EvAcquire; EvWrite RPlayers; EvWrite RSockets; EvRelease; EvRead RSockets]
         ++ sends (MsgLeave pid) (targets None (removed pid h))).
Proof.
  unfold disconnect, bind at 1. step_m.
  rewrite _broadcast_event_run. cbn. reflexivity.
Qed.

Lemma connect_run ws r h hist :
  connect env ws r h hist =
  match accept_fails env hist ws with
  | Some e => mkResult (Raise e) h [EvAccept ws]
  | None =>
      match send_fails env
              (hist ++ [EvAccept ws; EvAcquire; EvWrite RPlayers; EvWrite RSockets;
                        EvRelease; EvRead RPlayers])
              ws (MsgWelcome (id (new_player r)) (snapshots (registered ws r h))) with
      | Some e => mkResult (Raise e) (registered ws r h) (connect_prefix ws r h)
      | None =>
          mkResult (Ok (id (new_player r))) (registered ws r h)
            (connect_prefix ws r h
               ++ EvRead RSockets
               :: sends (MsgJoin (id (new_player r)))
                    (targets (Some [id (new_player r)]) (registered ws r h)))
      end
  end.
Proof.
  unfold connect, accept, send_text, with_lock.
  cbv beta iota zeta delta [bind get put emit ret raise history res hub_of emitted].
  rewrite ?app_nil_r, <- ?app_assoc. cbn [app].
  destruct (accept_fails env hist ws) as [e|]; [reflexivity|].
  rewrite ?app_nil_r, <- ?app_assoc. cbn [app].
  change (set_sockets (set_players h (<[id (new_player r):=new_player r]> (players h))) _)
    with (registered ws r h).
  match goal with |- context [send_fails env ?a ?b ?c] => destruct (send_fails env a b c) end.
  - reflexivity.
  - cbv beta iota. rewrite _broadcast_event_run. reflexivity.
Qed.

Lemma connect_hub ws r h hist :
  hub_of (connect env ws r h hist) = h \/
  hub_of (connect env ws r h hist) = registered ws r h.
Proof.
  rewrite (connect_run ws r h hist).
  destruct (accept_fails env hist ws); [left; reflexivity|].
  match goal with |- context [send_fails env ?a ?b ?c] => destruct (send_fails env a b c) end;
    right; reflexivity.
Qed.

Lemma connect_ok ws r h hist pid :
  res (connect env ws r h hist) = Ok pid ->
  pid = id (new_player r) /\ hub_of (connect env ws r h hist) = registered ws r h.
Proof.
  rewrite (connect_run ws r h hist).
  destruct (accept_fails env hist ws); [discriminate|].
  match goal with |- context [send_fails env ?a ?b ?c] => destruct (send_fails env a b c) end;
    [discriminate|].
  cbn. intros [= <-]. split; reflexivity.
Qed.

Lemma py_ne_str_false v s : py_ne_str v s = false <-> v = PStr s.
Proof.
  destruct v; cbn; try (split; [discriminate|intros [=]]).
  rewrite negb_false_iff, String.eqb_eq. split; [intros ->; reflexivity|intros [=]; assumption].
Qed.

Lemma py_ne_str_true v s : py_ne_str v s = true <-> v <> PStr s.
Proof.
  rewrite <- py_ne_str_false. destruct (py_ne_str v s); split; congruence.
Qed.

Lemma handle_message_accepted pid data p h hist :
  dict_get data "type" = PStr "input" ->
  dict_get data "id" = PStr pid ->
  players h !! pid = Some p ->
  handle_message pid data h hist
  = mkResult (Ok tt) (with_input pid p data h)
      [EvAcquire; EvRead RPlayers; EvWrite RPlayers; EvRelease].
Proof.
  intros Ht Hi Hp. unfold handle_message.
  apply py_ne_str_false in Ht, Hi. rewrite Ht, Hi.
  unfold with_lock, bind; cbn. rewrite Hp. reflexivity.
Qed.

Lemma handle_message_discarded pid data h hist :
  dict_get data "id" <> PStr pid \/ players h !! pid = None
    \/ dict_get data "type" <> PStr "input" ->
  res (handle_message pid data h hist) = Ok tt /\
  hub_of (handle_message pid data h hist) = h /\
  (emitted (handle_message pid data h hist) = [] \/
   emitted (handle_message pid data h hist) = [EvAcquire; EvRead RPlayers; EvRelease]).
Proof.
  intros H. unfold handle_message.
  destruct (py_ne_str (dict_get data "type") "input") eqn:Ht; [cbn; auto|].
  destruct (py_ne_str (dict_get data "id") pid) eqn:Hi; [cbn; auto|].
  apply py_ne_str_false in Ht, Hi.
  destruct H as [H|[H|H]]; try contradiction.
  unfold with_lock, bind; cbn. rewrite H. cbn. auto.
Qed.

Lemma _ticker_iteration_run h hist :
  _ticker_iteration env h hist
  = mkResult
      (match _tick_task h with
       | Some TaskCancelling => Raise CancelledError
       | _ => Ok tt
       end)
      (ticked (clock env hist) h) (tick_events (clock env hist) h).
Proof.
  unfold _ticker_iteration, perf_counter. step_m.
  rewrite (bind_ok _ _ _ _ _ _ _ (_step_run _ _ _)).
  rewrite (bind_ok _ _ _ _ _ _ _ (_broadcast_state_run _ _)).
  unfold sleep. step_m. cbn [app].
  unfold tick_events, ticked, tick_dt, set_players, set_last_tick; cbn.
  destruct (_tick_task h) as [[]|]; cbn; rewrite ?app_nil_r; reflexivity.
Qed.

Lemma count_sleeps_app t1 t2 : count_sleeps (t1 ++ t2) = (count_sleeps t1 + count_sleeps t2)%nat.
Proof. induction t1 as [|[] t1 IH]; cbn; rewrite ?IH; reflexivity. Qed.

Lemma count_sleeps_sends msg l : count_sleeps (sends msg l) = 0%nat.
Proof. induction l as [|kv l IH]; [reflexivity|]. cbn. exact IH. Qed.

(** While no cancellation is requested, every turn of the loop completes:
    [n] turns return normally, having slept [n] times. *)
Lemma _ticker_loop_runs n : forall h hist,
  _tick_task h <> Some TaskCancelling ->
  res (_ticker_loop env n h hist) = Ok tt /\
  count_sleeps (emitted (_ticker_loop env n h hist)) = n /\
  sockets (hub_of (_ticker_loop env n h hist)) = sockets h /\
  dom (players (hub_of (_ticker_loop env n h hist))) = dom (players h).
Proof.
  induction n as [|n IH]; intros h hist Hc.
  - cbn. auto.
  - cbn [_ticker_loop].
    assert (Hrun : _ticker_iteration env h hist
                   = mkResult (Ok tt) (ticked (clock env hist) h) (tick_events (clock env hist) h)).
    { rewrite _ticker_iteration_run. destruct (_tick_task h) as [[]|]; congruence. }
    rewrite (bind_ok _ _ _ _ _ _ _ Hrun). cbn [res hub_of emitted].
    destruct (IH (ticked (clock env hist) h) (hist ++ tick_events (clock env hist) h) Hc)
      as (Hr & Hn & Hs & Hd).
    split; [exact Hr|]. split; [|split].
    + rewrite count_sleeps_app, Hn. unfold tick_events.
      rewrite !count_sleeps_app, count_sleeps_sends. reflexivity.
    + rewrite Hs. reflexivity.
    + rewrite Hd. cbn. apply dom_fmap_L.
Qed.

Lemma stop_run h hist t :
  _tick_task h = Some t ->
  stop h hist
  = mkResult (Raise (NameError "contextlib")) (set_tick_task h (Some TaskCancelling))
      [EvCancel].
Proof. intros Ht. unfold stop. step_m. rewrite Ht. reflexivity. Qed.

Lemma stop_idle h hist :
  _tick_task h = None -> stop h hist = mkResult (Ok tt) h [].
Proof. intros Ht. unfold stop. step_m. rewrite Ht. reflexivity. Qed.

Lemma start_run h hist :
  start h hist
  = mkResult (Ok tt)
      (match _tick_task h with None => set_tick_task h (Some TaskRunning) | Some _ => h end) [].
Proof. unfold start. step_m. destruct (_tick_task h); reflexivity. Qed.

Lemma moved_refl h : moved h h.
Proof.
  repeat split. intros pid. destruct (players h !! pid); constructor. left; reflexivity.
Qed.

Lemma moved_trans h1 h2 h3 : moved h1 h2 -> moved h2 h3 -> moved h1 h3.
Proof.
  intros (Hs1 & Ht1 & Hp1) (Hs2 & Ht2 & Hp2). repeat split; [congruence..|].
  intros pid. specialize (Hp1 pid). specialize (Hp2 pid).
  destruct Hp1 as [p1 p2 H12|]; inversion Hp2 as [p2' p3 H23|]; subst; constructor.
  destruct H23 as [->|?]; [exact H12|right; assumption].
Qed.

Lemma moved_ticked now h : moved h (ticked now h).
Proof.
  repeat split. intros pid. cbn. rewrite lookup_fmap.
  destruct (players h !! pid); constructor. right. apply integrate_in_bounds.
Qed.

Lemma moved_last_tick h t : moved h (set_last_tick h t).
Proof.
  repeat split. intros pid. cbn. destruct (players h !! pid); constructor. left; reflexivity.
Qed.

Lemma _ticker_loop_moved n : forall h hist, moved h (hub_of (_ticker_loop env n h hist)).
Proof.
  induction n as [|n IH]; intros h hist; [apply moved_refl|].
  cbn [_ticker_loop]. unfold bind.
  rewrite _ticker_iteration_run. cbn [res hub_of emitted].
  destruct (_tick_task h) as [[]|]; cbn [hub_of];
    try (eapply moved_trans; [apply moved_ticked|apply IH]).
  apply moved_ticked.
Qed.

Lemma _ticker_moved n h hist : moved h (hub_of (_ticker env n h hist)).
Proof.
  unfold _ticker, perf_counter. step_m.
  eapply moved_trans; [apply (moved_last_tick h (Some (clock env hist)))|].
  unfold try_except.
  match goal with |- context [_ticker_loop env n ?a ?b] =>
    pose proof (_ticker_loop_moved n a b) as Hm;
    destruct (_ticker_loop env n a b) as [[[]|e] h' em] end; cbn in *; [exact Hm|].
  destruct e; cbn; exact Hm.
Qed.

Lemma moved_dom h h' : moved h h' -> dom (players h') = dom (players h).
Proof.
  intros (_ & _ & Hp). apply set_eq. intros pid. rewrite !elem_of_dom.
  specialize (Hp pid). destruct Hp; split; intros [? ?]; try discriminate; eauto.
Qed.

(** ** Invariants of the hub *)

Lemma handle_message_hub pid data h hist :
  hub_of (handle_message pid data h hist) = h \/
  exists p, players h !! pid = Some p /\
            hub_of (handle_message pid data h hist) = with_input pid p data h.
Proof.
  destruct (py_ne_str (dict_get data "type") "input") eqn:Ht;
    [apply py_ne_str_true in Ht; left; apply handle_message_discarded; auto|].
  destruct (py_ne_str (dict_get data "id") pid) eqn:Hi;
    [apply py_ne_str_true in Hi; left; apply handle_message_discarded; auto|].
  apply py_ne_str_false in Ht, Hi.
  destruct (players h !! pid) as [p|] eqn:Hp;
    [|left; apply handle_message_discarded; auto].
  right. exists p. split; [reflexivity|].
  rewrite (handle_message_accepted pid data p h hist Ht Hi Hp). reflexivity.
Qed.

Lemma stop_hub h hist :
  players (hub_of (stop h hist)) = players h /\ sockets (hub_of (stop h hist)) = sockets h.
Proof.
  destruct (_tick_task h) as [t|] eqn:Ht.
  - rewrite (stop_run h hist t Ht). split; reflexivity.
  - rewrite (stop_idle h hist Ht). split; reflexivity.
Qed.

Lemma start_hub h hist :
  players (hub_of (start h hist)) = players h /\ sockets (hub_of (start h hist)) = sockets h.
Proof. rewrite start_run. destruct (_tick_task h); split; reflexivity. Qed.

Lemma run_op_connect_hub ws r h hist :
  hub_of (run_op env (OpConnect ws r) h hist) = hub_of (connect env ws r h hist).
Proof.
  cbn [run_op]. unfold bind. destruct (connect env ws r h hist) as [[pid|e] h' em]; reflexivity.
Qed.

Lemma run_op_lockstep o h hist :
  lockstep h -> lockstep (hub_of (run_op env o h hist)).
Proof.
  unfold lockstep. intros Hl. destruct o as [| |ws r|pid|pid data|n].
  - cbn [run_op]. destruct (start_hub h hist) as [-> ->]. exact Hl.
  - cbn [run_op]. destruct (stop_hub h hist) as [-> ->]. exact Hl.
  - rewrite run_op_connect_hub.
    destruct (connect_hub ws r h hist) as [->| ->]; [exact Hl|].
    cbn. rewrite !dom_insert_L, Hl. reflexivity.
  - cbn [run_op]. rewrite disconnect_run. cbn. rewrite !dom_delete_L, Hl. reflexivity.
  - cbn [run_op]. destruct (handle_message_hub pid data h hist) as [->|(p & Hp & ->)];
      [exact Hl|].
    cbn. rewrite dom_insert_lookup_L by eauto. exact Hl.
  - cbn [run_op]. pose proof (_ticker_moved n h hist) as Hm.
    rewrite (moved_dom _ _ Hm). destruct Hm as (-> & _). exact Hl.
Qed.

Lemma run_op_bounds o h hist :
  op_draws_ok o -> all_in_bounds h -> all_in_bounds (hub_of (run_op env o h hist)).
Proof.
  unfold all_in_bounds. intros Ho Hb. destruct o as [| |ws r|pid|pid data|n].
  - cbn [run_op]. destruct (start_hub h hist) as [-> _]. exact Hb.
  - cbn [run_op]. destruct (stop_hub h hist) as [-> _]. exact Hb.
  - rewrite run_op_connect_hub.
    destruct (connect_hub ws r h hist) as [->| ->]; [exact Hb|].
    cbn. intros pid p. rewrite lookup_insert. case_decide.
    + intros [= <-]. destruct Ho. apply new_player_in_bounds; assumption.
    + apply Hb.
  - cbn [run_op]. rewrite disconnect_run. cbn. intros q p Hq.
    apply lookup_delete_Some in Hq as [_ Hq]. eapply Hb, Hq.
  - cbn [run_op]. destruct (handle_message_hub pid data h hist) as [->|(p & Hp & ->)];
      [exact Hb|].
    cbn. intros q p'. rewrite lookup_insert. case_decide.
    + intros [= <-]. apply (Hb pid p Hp).
    + apply Hb.
  - cbn [run_op]. destruct (_ticker_moved n h hist) as (_ & _ & Hm).
    intros pid p' Hp'. specialize (Hm pid). rewrite Hp' in Hm.
    inversion Hm as [p ? [->|?] Hp|]; subst; [|assumption].
    eapply Hb. symmetry. eassumption.
Qed.

Lemma run_ops_invariant (P : Hub -> Prop) (ok : op -> Prop) :
  (forall o h hist, ok o -> P h -> P (hub_of (run_op env o h hist))) ->
  forall ops h hist, Forall ok ops -> P h -> P (run_ops env ops h hist).1.
Proof.
  intros Hstep ops. induction ops as [|o ops IH]; intros h hist Hok Hh; [exact Hh|].
  inversion Hok; subst. cbn [run_ops]. apply IH; [assumption|]. apply Hstep; assumption.
Qed.

(** ** Lock discipline of a trace *)

Lemma lock_after_app held t1 t2 :
  lock_after held (t1 ++ t2) = lock_after held t1 ≫= fun held' => lock_after held' t2.
Proof.
  revert held. induction t1 as [|e t1 IH]; intros held; [reflexivity|].
  cbn [app lock_after]. destruct e, held; cbn; auto.
Qed.

Lemma disciplined_app t1 t2 : disciplined t1 -> disciplined t2 -> disciplined (t1 ++ t2).
Proof. unfold disciplined. intros H1 H2. rewrite lock_after_app, H1. exact H2. Qed.

Lemma disciplined_sends msg l : disciplined (sends msg l).
Proof. unfold disciplined. induction l as [|kv l IH]; [reflexivity|]. cbn. exact IH. Qed.

Lemma disciplined_tick_events now h : disciplined (tick_events now h).
Proof.
  unfold tick_events. apply disciplined_app; [reflexivity|].
  apply disciplined_app; [apply disciplined_sends|reflexivity].
Qed.

Lemma disciplined_ticker_loop n : forall h hist, disciplined (emitted (_ticker_loop env n h hist)).
Proof.
  induction n as [|n IH]; intros h hist; [reflexivity|].
  cbn [_ticker_loop]. unfold bind. rewrite _ticker_iteration_run. cbn [res hub_of emitted].
  destruct (_tick_task h) as [[]|]; cbn [emitted];
    try (apply disciplined_app; [apply disciplined_tick_events|apply IH]).
  apply disciplined_tick_events.
Qed.

Lemma disciplined_ticker n h hist : disciplined (emitted (_ticker env n h hist)).
Proof.
  unfold _ticker, perf_counter. step_m. unfold try_except.
  match goal with |- context [_ticker_loop env n ?a ?b] =>
    pose proof (disciplined_ticker_loop n a b) as Hd;
    destruct (_ticker_loop env n a b) as [[[]|e] h' em] end; cbn in *; [exact Hd|].
  destruct e; cbn; rewrite ?app_nil_r; exact Hd.
Qed.

Lemma disciplined_run_op o h hist : disciplined (emitted (run_op env o h hist)).
Proof.
  destruct o as [| |ws r|pid|pid data|n]; cbn [run_op].
  - rewrite start_run. reflexivity.
  - destruct (_tick_task h) as [t|] eqn:Ht.
    + rewrite (stop_run h hist t Ht). reflexivity.
    + rewrite (stop_idle h hist Ht). reflexivity.
  - unfold bind. rewrite connect_run.
    destruct (accept_fails env hist ws); [reflexivity|].
    match goal with |- context [send_fails env ?a ?b ?c] => destruct (send_fails env a b c) end;
      cbn; [reflexivity|].
    rewrite app_nil_r. apply (disciplined_sends (MsgJoin _)).
  - rewrite disconnect_run. cbn. apply (disciplined_sends (MsgLeave _)).
  - unfold handle_message.
    destruct (py_ne_str _ "input"); [reflexivity|].
    destruct (py_ne_str _ pid); [reflexivity|].
    unfold with_lock, bind; cbn. destruct (players h !! pid); reflexivity.
  - apply disciplined_ticker.
Qed.

End Properties.

(** * The claims *)

(** C1: after [integrate], whatever the player, its input, its speed and [dt]
    (NaN and infinities included), [0 <= x <= WORLD_WIDTH - PLAYER_SIZE] and
    [0 <= y <= WORLD_HEIGHT - PLAYER_SIZE]; a player made by [connect] from
    unit draws of [random.random()] starts within the same bounds; hence every
    player of a hub is within bounds after every sequence of operations. *)
Theorem bounds_invariant :
  (forall p dt, in_bounds (integrate p dt)) /\
  (forall r, unit_draw (x_draw r) -> unit_draw (y_draw r) -> in_bounds (new_player r)) /\
  (forall env o h hist,
     op_draws_ok o -> all_in_bounds h -> all_in_bounds (hub_of (run_op env o h hist))) /\
  (forall env ops hist,
     Forall op_draws_ok ops -> all_in_bounds (run_ops env ops Hub_init hist).1).
Proof.
  split; [exact integrate_in_bounds|]. split; [exact new_player_in_bounds|].
  split; [intros; apply run_op_bounds; assumption|].
  intros env ops hist Hok.
  apply (run_ops_invariant env all_in_bounds op_draws_ok); [apply run_op_bounds|assumption|].
  intros pid p Hp. cbn [Hub_init players] in Hp. rewrite lookup_empty in Hp. discriminate.
Qed.

Lemma bounds_invariant_witness :
  in_bounds (new_player rand_a) /\
  all_in_bounds
    (run_ops env_down
       [OpStart; OpConnect (Socket 1) rand_a; OpMessage "abcdef" data_left;
        OpTicker 3; OpDisconnect "nobody"] Hub_init []).1.
Proof.
  destruct bounds_invariant as (_ & Hnew & _ & Hall). split.
  - apply Hnew; split; reflexivity.
  - apply Hall. repeat constructor.
Defined.

(** C2, as stated, fails: at the default speed and the tick period, the
    diagonal step is shorter than the single-axis step (by about two units in
    the last place); the exact lengths differ, and so do the lengths computed
    in binary64. *)
Lemma diagonal_not_exactly_fair :
  velocity player_diag = (0x1.3720820155763p+7, -0x1.3720820155763p+7)%float /\
  velocity player_axis = (220, 0)%float /\
  (step_magnitude player_diag dt_tick < step_magnitude player_axis dt_tick)%R /\
  (let dx := ((velocity player_diag).1 * dt_tick)%float in
   let dy := ((velocity player_diag).2 * dt_tick)%float in
   (PrimFloat.sqrt (dx * dx + dy * dy) <? (velocity player_axis).1 * dt_tick)%float = true).
Proof.
  split; [reflexivity|]. split; [reflexivity|]. split; [|reflexivity].
  unfold step_magnitude, displacement_magnitude, Fmag.
  change (Prim2SF ((velocity player_diag).1 * dt_tick))
    with (S754_finite false 8757446049722936 (-50)).
  change (Prim2SF ((velocity player_diag).2 * dt_tick))
    with (S754_finite true 8757446049722936 (-50)).
  change (Prim2SF ((velocity player_axis).1 * dt_tick))
    with (S754_finite false 6192449487634432 (-49)).
  change (Prim2SF ((velocity player_axis).2 * dt_tick)) with (S754_zero false).
  unfold SFmag. change (-50) with (- (50)). change (-49) with (- (49)).
  rewrite !powerRZ_2_neg by lia.
  change (2 ^ 50) with 1125899906842624. change (2 ^ 49) with 562949953421312.
  apply sqrt_lt_1; nra.
Qed.

(** C2 (amended): [integrate] computes, for a finite speed, a horizontal
    velocity equal to [-speed] if only left is set, [speed] if only right, and
    zero if both or neither, and the vertical one alike with up and down; when
    both components are non-zero each is multiplied by the double
    [1.0 / sqrt(2.0)]; the new position is the old one plus velocity times
    [dt], clamped per axis into [[0, WORLD_WIDTH - PLAYER_SIZE]] and
    [[0, WORLD_HEIGHT - PLAYER_SIZE]]; and for equal speed and [dt], away from
    underflow and overflow, the pre-clamp displacement of a diagonal step has
    the length of a single-axis step up to a relative rounding error of
    [2^-50], and is shorter than [sqrt 2] times it. *)
Theorem integrate_velocity_and_clamp :
  (forall s, finite s ->
     axis_velocity false false s = 0%float /\
     feq (axis_velocity true false s) (- s) /\
     feq (axis_velocity false true s) s /\
     feq (axis_velocity true true s) 0) /\
  (forall p,
     let vx := axis_velocity (left (input p)) (right (input p)) (speed p) in
     let vy := axis_velocity (up (input p)) (down (input p)) (speed p) in
     velocity p = if fneq vx 0 && fneq vy 0
                  then ((vx * inv_sqrt2)%float, (vy * inv_sqrt2)%float)
                  else (vx, vy)) /\
  inv_sqrt2 = 0x1.6a09e667f3bccp-1%float /\
  (forall p dt,
     x (integrate p dt) = _clamp (x p + (velocity p).1 * dt) 0 X_MAX /\
     y (integrate p dt) = _clamp (y p + (velocity p).2 * dt) 0 Y_MAX) /\
  (forall v lo hi,
     ((lo <? v)%float = true -> (v <? hi)%float = true -> _clamp v lo hi = v) /\
     ((v <? hi)%float = true -> (lo <? v)%float = false -> _clamp v lo hi = lo) /\
     ((v <? hi)%float = false -> (lo <? hi)%float = true -> _clamp v lo hi = hi)) /\
  (forall p q dt,
     moderate (speed p) -> speed q = speed p -> moderate dt ->
     diagonal (input p) = true -> single_axis (input q) = true ->
     (Rabs (step_magnitude p dt - step_magnitude q dt)
        <= powerRZ 2 (-50) * step_magnitude q dt)%R /\
     (step_magnitude p dt < sqrt 2 * step_magnitude q dt)%R).
Proof.
  split; [exact axis_velocity_finite|]. split; [reflexivity|]. split; [reflexivity|].
  split; [intros p dt; unfold integrate; destruct (velocity p); split; reflexivity|].
  split; [exact _clamp_cases|].
  intros p q dt Hs Hq Hdt Hd Ha.
  destruct (diagonal_step_fair p q dt Hs Hq Hdt Hd Ha) as (Herr & _ & Hlt).
  rewrite <- eight_u64. split; assumption.
Qed.

Lemma integrate_velocity_and_clamp_witness :
  (Rabs (step_magnitude player_diag dt_tick - step_magnitude player_axis dt_tick)
     <= powerRZ 2 (-50) * step_magnitude player_axis dt_tick)%R /\
  feq (axis_velocity true true DEFAULT_PLAYER_SPEED) 0 /\
  x (integrate player_diag dt_tick) = 0x1.af1cd9cceef24p+6%float.
Proof.
  destruct integrate_velocity_and_clamp as (Haxis & _ & _ & Hpos & _ & Hfair).
  split; [|split].
  - apply Hfair; try reflexivity; vm_compute; repeat split; discriminate.
  - apply Haxis. exact I.
  - rewrite (proj1 (Hpos player_diag dt_tick)). reflexivity.
Defined.

(** C3: the players map and the sockets map hold the same ids: initially,
    after each operation made on a hub where they do, hence after every
    sequence of operations; an id has a player iff it has a socket, and a map
    gives one value per id. *)
Theorem lockstep_invariant :
  lockstep Hub_init /\
  (forall env o h hist, lockstep h -> lockstep (hub_of (run_op env o h hist))) /\
  (forall env ops hist, lockstep (run_ops env ops Hub_init hist).1) /\
  (forall h pid, lockstep h -> (is_Some (players h !! pid) <-> is_Some (sockets h !! pid))).
Proof.
  split; [reflexivity|]. split; [intros; apply run_op_lockstep; assumption|].
  split.
  - intros env ops hist.
    apply (run_ops_invariant env lockstep (fun _ => True)).
    + intros; apply run_op_lockstep; assumption.
    + apply Forall_forall. auto.
    + reflexivity.
  - intros h pid Hl. rewrite <- !elem_of_dom, Hl. reflexivity.
Qed.

Lemma lockstep_invariant_witness :
  lockstep (hub_of (run_op env_ok (OpDisconnect "abcdef") hub_two [])) /\
  (is_Some (players hub_two !! "hjlnpr"%string) <-> is_Some (sockets hub_two !! "hjlnpr"%string)).
Proof.
  destruct lockstep_invariant as (_ & Hop & Hall & Hiff).
  pose proof (Hall env_ok [OpConnect (Socket 1) rand_a; OpConnect (Socket 2) rand_b] [])
    as Htwo.
  split; [apply Hop; exact Htwo|apply Hiff; exact Htwo].
Defined.

(** C4: [handle_message(pid, data)] with an ["id"] other than [pid], or for a
    player that is no longer there, or with a ["type"] other than ["input"],
    returns normally, leaves the hub (both maps, every player) as it was, and
    sends nothing. *)
Theorem handle_message_discards (pid : string) (data : gmap string pyval)
    (h : Hub) (hist : list event) :
  dict_get data "id" <> PStr pid \/ players h !! pid = None
    \/ dict_get data "type" <> PStr "input" ->
  res (handle_message pid data h hist) = Ok tt /\
  hub_of (handle_message pid data h hist) = h /\
  no_send (emitted (handle_message pid data h hist)) /\
  no_write (emitted (handle_message pid data h hist)).
Proof.
  intros H. destruct (handle_message_discarded pid data h hist H) as (Hr & Hh & [He|He]).
  - repeat split; try assumption; rewrite He; intros ? *; apply not_elem_of_nil.
  - repeat split; try assumption; rewrite He; intros ? *;
      rewrite !elem_of_cons; intros [|[|[|Hn]]]; try discriminate;
      exact (not_elem_of_nil _ Hn).
Qed.

Lemma handle_message_discards_witness :
  res (handle_message "abcdef" data_forged hub_two []) = Ok tt /\
  hub_of (handle_message "abcdef" data_forged hub_two []) = hub_two /\
  no_send (emitted (handle_message "abcdef" data_forged hub_two [])) /\
  no_write (emitted (handle_message "abcdef" data_forged hub_two [])).
Proof.
  apply handle_message_discards. left. vm_compute. discriminate.
Defined.

(** C5, as stated, fails: [_broadcast_state] reads [self.players] and
    [self.sockets] for the snapshot without taking the lock. *)
Lemma snapshot_read_outside_lock :
  emitted (_broadcast_state env_ok hub_one [])
  = [EvRead RPlayers; EvRead RSockets;
     EvSend (Socket 1) (MsgState (snapshots hub_one))] /\
  ~ strictly_disciplined (emitted (_broadcast_state env_ok hub_one [])) /\
  ~ strictly_disciplined (emitted (run_op env_ok (OpTicker 1) hub_one [])).
Proof.
  split; [reflexivity|]. split; intros [_ H]; vm_compute in H; discriminate.
Qed.

(** C5 (amended): every operation mutates the world collections inside the
    critical section only, takes and releases the lock in turn, and does no
    network I/O and no sleep while holding it; the reads that build a snapshot
    ([_broadcast_state]) or a target list ([_broadcast_event]) happen outside
    the critical section, before the sends of that call, which changes
    nothing in the hub. *)
Theorem lock_discipline :
  (forall env o h hist, disciplined (emitted (run_op env o h hist))) /\
  (forall env h hist,
     _broadcast_state env h hist
     = mkResult (Ok tt) h
         (EvRead RPlayers :: EvRead RSockets
            :: sends (MsgState (snapshots h)) (map_to_list (sockets h)))) /\
  (forall env ev exclude h hist,
     _broadcast_event env ev exclude h hist
     = mkResult (Ok tt) h (EvRead RSockets :: sends ev (targets exclude h))).
Proof.
  split; [exact disciplined_run_op|]. split; [exact _broadcast_state_run|].
  exact _broadcast_event_run.
Qed.

(** C6: an accepted input message replaces the whole [InputState] of the
    player by the four flags of the message, a missing flag being false; the
    other fields of the player, the other players and the sockets are
    unchanged. *)
Theorem handle_message_replaces_input (pid : string) (data : gmap string pyval)
    (p : Player) (h : Hub) (hist : list event) :
  dict_get data "type" = PStr "input" ->
  dict_get data "id" = PStr pid ->
  players h !! pid = Some p ->
  let h' := hub_of (handle_message pid data h hist) in
  res (handle_message pid data h hist) = Ok tt /\
  (exists p',
     players h' !! pid = Some p' /\
     input p' = {| up := truthy (dict_get data "up"); down := truthy (dict_get data "down");
                   left := truthy (dict_get data "left");
                   right := truthy (dict_get data "right") |} /\
     id p' = id p /\ x p' = x p /\ y p' = y p /\ speed p' = speed p /\
     label p' = label p /\ color p' = color p) /\
  (forall k, data !! k = None -> truthy (dict_get data k) = false) /\
  (forall k b, data !! k = Some (PBool b) -> truthy (dict_get data k) = b) /\
  (forall q, q <> pid -> players h' !! q = players h !! q) /\
  sockets h' = sockets h /\ _tick_task h' = _tick_task h /\ _last_tick h' = _last_tick h.
Proof.
  intros Ht Hi Hp h'. subst h'.
  rewrite (handle_message_accepted pid data p h hist Ht Hi Hp). cbn [res hub_of].
  split; [reflexivity|]. split.
  - exists (set_input p (input_of data)). cbn. rewrite lookup_insert_eq. repeat split.
  - split; [intros k Hk; unfold dict_get; rewrite Hk; reflexivity|].
    split; [intros k b Hk; unfold dict_get; rewrite Hk; reflexivity|].
    split; [|repeat split].
    intros q Hq. cbn. apply lookup_insert_ne. congruence.
Qed.

Lemma handle_message_replaces_input_witness :
  exists p',
    players (hub_of (handle_message "abcdef" data_left hub_two [])) !! "abcdef"%string = Some p' /\
    input p' = mkInput false false true false.
Proof.
  destruct (handle_message_replaces_input "abcdef" data_left (new_player rand_a) hub_two [])
    as (_ & (p' & Hp' & Hin & _) & _); [reflexivity..|].
  exists p'. split; [exact Hp'|]. rewrite Hin. reflexivity.
Defined.

(** C7: whatever the transport answers to each send, [_broadcast_state]
    returns normally, leaves the hub as it was, and makes exactly one send
    attempt per registered socket (the ids of [map_to_list] are distinct), in
    one pass and with the same frame; and while no cancellation is requested
    the tick loop completes every turn. *)
Theorem broadcast_isolates_send_failures (env : Env) (h : Hub) (hist : list event) :
  res (_broadcast_state env h hist) = Ok tt /\
  hub_of (_broadcast_state env h hist) = h /\
  emitted (_broadcast_state env h hist)
  = EvRead RPlayers :: EvRead RSockets
      :: ((fun kv => EvSend kv.2 (MsgState (snapshots h))) <$> map_to_list (sockets h)) /\
  NoDup (map_to_list (sockets h)).*1 /\
  (forall n,
     _tick_task h <> Some TaskCancelling ->
     res (_ticker_loop env n h hist) = Ok tt /\
     count_sleeps (emitted (_ticker_loop env n h hist)) = n).
Proof.
  rewrite _broadcast_state_run. cbn [res hub_of emitted].
  repeat split; try reflexivity.
  - apply NoDup_fst_map_to_list.
  - apply _ticker_loop_runs; assumption.
  - apply _ticker_loop_runs; assumption.
Qed.

Lemma broadcast_isolates_send_failures_witness :
  emitted (_broadcast_state env_down hub_two [])
  = [EvRead RPlayers; EvRead RSockets;
     EvSend (Socket 1) (MsgState (snapshots hub_two));
     EvSend (Socket 2) (MsgState (snapshots hub_two))] /\
  res (_ticker_loop env_down 5 hub_two []) = Ok tt /\
  count_sleeps (emitted (_ticker_loop env_down 5 hub_two [])) = 5%nat.
Proof.
  destruct (broadcast_isolates_send_failures env_down hub_two []) as (_ & _ & He & _ & Hl).
  split; [rewrite He; reflexivity|].
  apply Hl. vm_compute. discriminate.
Defined.

(** C8: [disconnect(pid)] returns normally and removes [pid] from both maps,
    touching no other entry; when [pid] is in neither map the hub is
    unchanged. *)
Theorem disconnect_idempotent (env : Env) (pid : string) (h : Hub) (hist : list event) :
  let h' := hub_of (disconnect env pid h hist) in
  res (disconnect env pid h hist) = Ok tt /\
  players h' = delete pid (players h) /\
  sockets h' = delete pid (sockets h) /\
  (forall q, q <> pid ->
     players h' !! q = players h !! q /\ sockets h' !! q = sockets h !! q) /\
  players h' !! pid = None /\ sockets h' !! pid = None /\
  _tick_task h' = _tick_task h /\ _last_tick h' = _last_tick h /\
  (players h !! pid = None -> sockets h !! pid = None -> h' = h).
Proof.
  intros h'. subst h'. rewrite disconnect_run. cbn [res hub_of removed players sockets].
  repeat split; try reflexivity.
  - apply lookup_delete_ne. congruence.
  - apply lookup_delete_ne. congruence.
  - apply lookup_delete_eq.
  - apply lookup_delete_eq.
  - intros Hp Hs. unfold removed. rewrite (delete_id _ _ Hp), (delete_id _ _ Hs).
    destruct h; reflexivity.
Qed.

Lemma disconnect_idempotent_witness :
  hub_of (disconnect env_down "nobody" hub_two []) = hub_two /\
  hub_of (disconnect env_down "abcdef"
            (hub_of (disconnect env_down "abcdef" hub_two [])) [])
  = hub_of (disconnect env_down "abcdef" hub_two []).
Proof.
  split.
  - apply (disconnect_idempotent env_down "nobody" hub_two []); reflexivity.
  - apply (disconnect_idempotent env_down "abcdef"
             (hub_of (disconnect env_down "abcdef" hub_two [])) []).
    + apply (disconnect_idempotent env_down "abcdef" hub_two []).
    + apply (disconnect_idempotent env_down "abcdef" hub_two []).
Defined.

(** C9 fails on the code: [stop] on a hub whose tick task was started asks the
    task to cancel, then raises [NameError] on [contextlib], which the module
    never imports; the task handle is not cleared. *)
Theorem stop_raises_NameError (h : Hub) (hist : list event) (t : Task) :
  stop (set_tick_task h (Some t)) hist
  = mkResult (Raise (NameError "contextlib"))
      (set_tick_task h (Some TaskCancelling)) [EvCancel].
Proof. apply (stop_run (set_tick_task h (Some t)) hist t). reflexivity. Qed.

(** C10, as stated, fails: when the generator returns the same id twice, both
    calls return it and the second registration replaces the first. *)
Lemma two_connects_same_id :
  let c1 := connect env_ok (Socket 1) rand_a Hub_init [] in
  let c2 := connect env_ok (Socket 2) rand_a (hub_of c1) (emitted c1) in
  res c1 = Ok "abcdef"%string /\ res c2 = Ok "abcdef"%string /\
  size (players (hub_of c2)) = 1%nat /\ size (sockets (hub_of c2)) = 1%nat /\
  sockets (hub_of c2) !! "abcdef"%string = Some (Socket 2).
Proof. vm_compute. repeat split. Qed.

(** C10 (amended): two [connect] calls that return, with ids that the
    generator made different, yield two distinct ids, both registered with
    their own player and socket, and an empty world ends with exactly two
    entries; with equal ids the second registration replaces the first. *)
Theorem two_connects (env : Env) (ws1 ws2 : WebSocket) (r1 r2 : Rand)
    (h : Hub) (hist : list event) (pid1 pid2 : string) :
  let c1 := connect env ws1 r1 h hist in
  let c2 := connect env ws2 r2 (hub_of c1) (hist ++ emitted c1) in
  res c1 = Ok pid1 -> res c2 = Ok pid2 ->
  pid1 = _rand_id 6 (id_draw r1) /\ pid2 = _rand_id 6 (id_draw r2) /\
  players (hub_of c2) !! pid2 = Some (new_player r2) /\
  sockets (hub_of c2) !! pid2 = Some ws2 /\
  (pid1 <> pid2 ->
     players (hub_of c2) !! pid1 = Some (new_player r1) /\
     sockets (hub_of c2) !! pid1 = Some ws1 /\
     (players h = ∅ -> sockets h = ∅ ->
      size (players (hub_of c2)) = 2%nat /\ size (sockets (hub_of c2)) = 2%nat)) /\
  (pid1 = pid2 ->
     players h = ∅ -> sockets h = ∅ ->
     size (players (hub_of c2)) = 1%nat /\ size (sockets (hub_of c2)) = 1%nat).
Proof.
  intros c1 c2 H1 H2. subst c1 c2.
  apply connect_ok in H1 as [-> E1]. rewrite E1 in *.
  apply connect_ok in H2 as [-> E2]. rewrite E2.
  change (id (new_player r1)) with (_rand_id 6 (id_draw r1)) in *.
  change (id (new_player r2)) with (_rand_id 6 (id_draw r2)) in *.
  cbn [registered players sockets].
  change (id (new_player r1)) with (_rand_id 6 (id_draw r1)) in *.
  change (id (new_player r2)) with (_rand_id 6 (id_draw r2)) in *.
  split; [reflexivity|]. split; [reflexivity|].
  split; [apply lookup_insert_eq|]. split; [apply lookup_insert_eq|]. split.
  - intros Hne.
    split; [rewrite lookup_insert_ne by congruence; apply lookup_insert_eq|].
    split; [rewrite lookup_insert_ne by congruence; apply lookup_insert_eq|].
    intros -> ->.
    rewrite !(map_size_insert_None (_rand_id 6 (id_draw r2)))
      by (rewrite lookup_insert_ne by congruence; apply lookup_empty).
    rewrite !map_size_insert_None by apply lookup_empty.
    rewrite !map_size_empty. done.
  - intros Heq -> ->. rewrite Heq, !insert_insert_eq.
    rewrite !map_size_insert_None by apply lookup_empty.
    rewrite !map_size_empty. done.
Qed.

Lemma two_connects_witness :
  players hub_two !! "abcdef"%string = Some (new_player rand_a) /\
  sockets hub_two !! "abcdef"%string = Some (Socket 1) /\
  size (players hub_two) = 2%nat /\ size (sockets hub_two) = 2%nat.
Proof.
  destruct (two_connects env_ok (Socket 1) (Socket 2) rand_a rand_b Hub_init []
              "abcdef" "hjlnpr" eq_refl eq_refl) as (_ & _ & _ & _ & Hne & _).
  destruct Hne as (Hp & Hs & Hsize); [vm_compute; discriminate|].
  destruct Hsize as [Hn1 Hn2]; [reflexivity..|].
  repeat split; assumption.
Defined.

(** * Further properties *)

(** ** The clamp and an idle player *)

Lemma SFcompare_refl_not_Lt (a : spec_float) : SFcompare a a <> Some Lt.
Proof.
  destruct a as [s|s| |s m e]; cbn; try destruct s; try discriminate;
    rewrite Z.compare_refl;
    change (Pos.compare_cont Eq m m) with (Pos.compare m m);
    rewrite Pos.compare_refl; discriminate.
Qed.

Lemma ltb_irrefl (a : float) : (a <? a)%float = false.
Proof.
  rewrite ltb_spec. unfold SFltb.
  pose proof (SFcompare_refl_not_Lt (Prim2SF a)) as H.
  destruct (SFcompare (Prim2SF a) (Prim2SF a)) as [[]|]; congruence.
Qed.

(** X1: [_clamp] returns one of its three arguments, and clamping a clamped
    value changes nothing, for all floats (NaN, infinities and reversed
    bounds included). *)
Theorem clamp_idempotent (v lo hi : float) :
  (_clamp v lo hi = v \/ _clamp v lo hi = lo \/ _clamp v lo hi = hi) /\
  _clamp (_clamp v lo hi) lo hi = _clamp v lo hi.
Proof.
  unfold _clamp, py_max, py_min.
  destruct (v <? hi)%float eqn:Hv.
  - destruct (lo <? v)%float eqn:Hl.
    + split; [auto|]. rewrite Hv, Hl. reflexivity.
    + split; [auto|]. destruct (lo <? hi)%float eqn:Hlh; rewrite ?ltb_irrefl, ?Hlh; reflexivity.
  - destruct (lo <? hi)%float eqn:Hlh.
    + split; [auto|]. rewrite ltb_irrefl, Hlh. reflexivity.
    + split; [auto|]. rewrite Hlh, Hlh. reflexivity.
Qed.

Lemma ltb_nan_l (a b : float) : Prim2SF a = S754_nan -> (a <? b)%float = false.
Proof. intros H. rewrite ltb_spec, H. reflexivity. Qed.

Lemma add_nan_r (a b : float) : Prim2SF b = S754_nan -> Prim2SF (a + b) = S754_nan.
Proof. intros H. rewrite add_spec, H. destruct (Prim2SF a) as [| [] | |]; reflexivity. Qed.

Lemma mul_nan_r (a b : float) : Prim2SF b = S754_nan -> Prim2SF (a * b) = S754_nan.
Proof. intros H. rewrite mul_spec, H. destruct (Prim2SF a); reflexivity. Qed.

(** X2: [integrate] with a NaN [dt] puts the player at the far corner
    [(WORLD_WIDTH - PLAYER_SIZE, WORLD_HEIGHT - PLAYER_SIZE)], whatever its
    position, speed and input: the products and sums are NaN, [min(vmax, NaN)]
    is [vmax], and [max(0.0, vmax)] is [vmax]. *)
Theorem integrate_nan_dt (p : Player) (dt : float) :
  Prim2SF dt = S754_nan ->
  x (integrate p dt) = X_MAX /\ y (integrate p dt) = Y_MAX.
Proof.
  intros Hdt. unfold integrate. destruct (velocity p) as [vx vy]. cbn [x y].
  unfold _clamp, py_max, py_min.
  rewrite (ltb_nan_l (x p + vx * dt) X_MAX) by (apply add_nan_r, mul_nan_r, Hdt).
  rewrite (ltb_nan_l (y p + vy * dt) Y_MAX) by (apply add_nan_r, mul_nan_r, Hdt).
  split; reflexivity.
Qed.

Lemma integrate_nan_dt_witness :
  x (integrate player_diag nan) = X_MAX /\ y (integrate player_diag nan) = Y_MAX.
Proof. apply (integrate_nan_dt player_diag nan). reflexivity. Defined.

Lemma SFcompare_Eq (a b : spec_float) :
  SFcompare a b = Some Eq ->
  a = b \/ (exists s t, a = S754_zero s /\ b = S754_zero t).
Proof.
  destruct a as [s|s| |s m e], b as [t|t| |t n f]; cbn;
    try destruct s; try destruct t; try discriminate; eauto.
  - destruct (Z.compare_spec e f) as [He|He|He]; try discriminate.
    change (Pos.compare_cont Eq m n) with (Pos.compare m n).
    destruct (Pos.compare_spec m n) as [Hm|Hm|Hm]; try discriminate.
    intros _. left. congruence.
  - destruct (Z.compare_spec e f) as [He|He|He]; try discriminate.
    change (Pos.compare_cont Eq m n) with (Pos.compare m n).
    destruct (Pos.compare_spec m n) as [Hm|Hm|Hm]; try discriminate.
    intros _. left. congruence.
Qed.

Lemma SFcompare_refl (a : spec_float) : a <> S754_nan -> SFcompare a a = Some Eq.
Proof.
  destruct a as [s|s| |s m e]; cbn; try destruct s; try congruence;
    intros _; rewrite Z.compare_refl;
    change (Pos.compare_cont Eq m m) with (Pos.compare m m);
    rewrite Pos.compare_refl; reflexivity.
Qed.

Lemma SFcompare_zero_l (s t : bool) (c : spec_float) :
  SFcompare (S754_zero s) c = SFcompare (S754_zero t) c.
Proof. destruct c; reflexivity. Qed.

Lemma SFcompare_zero_r (s t : bool) (c : spec_float) :
  SFcompare c (S754_zero s) = SFcompare c (S754_zero t).
Proof. destruct c; reflexivity. Qed.

Lemma same_number_compare_l (a b c : float) :
  same_number a b ->
  SFcompare (Prim2SF a) (Prim2SF c) = SFcompare (Prim2SF b) (Prim2SF c).
Proof.
  intros [->|(s & t & -> & ->)]; [reflexivity|apply SFcompare_zero_l].
Qed.

Lemma same_number_feq (a b : float) :
  same_number a b -> Prim2SF b <> S754_nan -> feq a b.
Proof.
  unfold feq. rewrite FloatAxioms.eqb_spec. unfold SFeqb.
  intros [->|(s & t & -> & ->)] Hn; [|reflexivity].
  rewrite SFcompare_refl by assumption. reflexivity.
Qed.

Lemma fle_not_nan_r (a b : float) : fle a b -> Prim2SF b <> S754_nan.
Proof.
  unfold fle. rewrite leb_spec. unfold SFleb. intros H Hn. rewrite Hn in H.
  destruct (Prim2SF a); discriminate.
Qed.

Lemma fle_not_ltb_feq (a b : float) : fle a b -> (a <? b)%float = false -> feq a b.
Proof.
  unfold fle, feq. rewrite leb_spec, ltb_spec, FloatAxioms.eqb_spec.
  unfold SFleb, SFltb, SFeqb.
  destruct (SFcompare (Prim2SF a) (Prim2SF b)) as [[]|]; congruence.
Qed.

Lemma feq_sym (a b : float) : feq a b -> feq b a.
Proof.
  unfold feq. rewrite !FloatAxioms.eqb_spec. unfold SFeqb.
  destruct (SFcompare (Prim2SF a) (Prim2SF b)) as [[]|] eqn:Hc; try discriminate.
  intros _. destruct (SFcompare_Eq _ _ Hc) as [Hab|(s & t & Ha & Hb)].
  - rewrite <- Hab. rewrite SFcompare_refl; [reflexivity|].
    intros Hn. rewrite Hn in Hc. discriminate.
  - rewrite Ha, Hb. reflexivity.
Qed.

(** Clamping a float that is the same number as [w], itself within the
    bounds, gives [w] as a number. *)
Lemma _clamp_same (v w lo hi : float) :
  same_number v w -> fle lo w -> fle w hi -> (lo <? hi)%float = true ->
  feq (_clamp v lo hi) w.
Proof.
  intros Hs Hlo Hhi Hlh.
  assert (Hvh : (v <? hi)%float = (w <? hi)%float).
  { rewrite !ltb_spec. unfold SFltb. rewrite (same_number_compare_l v w hi Hs). reflexivity. }
  assert (Hlv : (lo <? v)%float = (lo <? w)%float).
  { rewrite !ltb_spec. unfold SFltb.
    destruct Hs as [->|(s & t & -> & ->)]; [reflexivity|].
    rewrite (SFcompare_zero_r s t). reflexivity. }
  unfold _clamp, py_max, py_min. rewrite Hvh.
  destruct (w <? hi)%float eqn:Hw.
  - rewrite Hlv. destruct (lo <? w)%float eqn:Hl.
    + apply same_number_feq; [exact Hs|]. eapply fle_not_nan_r, Hlo.
    + apply fle_not_ltb_feq; assumption.
  - rewrite Hlh. apply feq_sym, fle_not_ltb_feq; assumption.
Qed.

Lemma fle_finite (a b c : float) : finite a -> finite c -> fle a b -> fle b c -> finite b.
Proof.
  unfold finite, fle. rewrite !leb_spec. unfold SFleb.
  destruct (Prim2SF a) as [| | |], (Prim2SF c) as [| | |], (Prim2SF b) as [|[]| |];
    cbn; try contradiction; try discriminate; auto.
Qed.

Lemma add_zero_same (a z : float) (s : bool) :
  finite a -> Prim2SF z = S754_zero s -> same_number (a + z) a.
Proof.
  unfold finite, same_number. intros Ha Hz. rewrite add_spec, Hz.
  destruct (Prim2SF a) as [t| | |t m e]; try contradiction.
  - right. exists (if Bool.eqb t s then t else false), t. split; [|reflexivity].
    destruct t, s; reflexivity.
  - left. reflexivity.
Qed.

Lemma mul_zero_finite (z dt : float) (s : bool) :
  Prim2SF z = S754_zero s -> finite dt -> exists t, Prim2SF (z * dt) = S754_zero t.
Proof.
  unfold finite. intros Hz Hdt. rewrite mul_spec, Hz.
  destruct (Prim2SF dt); try contradiction; cbn; eauto.
Qed.

Lemma axis_velocity_idle (a b : bool) (s : float) :
  xorb a b = false -> finite s -> exists t, Prim2SF (axis_velocity a b s) = S754_zero t.
Proof.
  unfold finite. intros Hab Hs. destruct a, b; try discriminate; unfold axis_velocity.
  - destruct (Prim2SF s) as [sg| | |sg m e] eqn:E; try contradiction.
    + rewrite add_spec, sub_spec, E. destruct sg; cbn; eauto.
    + exists false. eapply zero_sub_add_finite, E.
  - exists false. reflexivity.
Qed.

Lemma fneq_any_zero (z : float) (s : bool) : Prim2SF z = S754_zero s -> fneq z 0 = false.
Proof. intros Hz. unfold fneq. rewrite FloatAxioms.eqb_spec, Hz. reflexivity. Qed.

(** X3: a player whose input drives no axis (no flag, or two opposite flags,
    on each axis) and who is within bounds stays where it is under
    [integrate], for any finite speed and finite [dt]. *)
Theorem integrate_idle_stays (p : Player) (dt : float) :
  idle (input p) -> finite (speed p) -> finite dt -> in_bounds p ->
  feq (x (integrate p dt)) (x p) /\ feq (y (integrate p dt)) (y p).
Proof.
  intros [Hh Hv] Hs Hdt (Hx0 & Hx1 & Hy0 & Hy1).
  destruct (axis_velocity_idle _ _ (speed p) Hh Hs) as [tx Hvx].
  destruct (axis_velocity_idle _ _ (speed p) Hv Hs) as [ty Hvy].
  unfold integrate, velocity. rewrite (fneq_any_zero _ _ Hvx). cbn [andb x y].
  destruct (mul_zero_finite _ dt _ Hvx Hdt) as [ux Hux].
  destruct (mul_zero_finite _ dt _ Hvy Hdt) as [uy Huy].
  split; apply _clamp_same; try assumption; try reflexivity.
  - eapply add_zero_same; [|exact Hux]. eapply (fle_finite 0 _ X_MAX); try eassumption; exact I.
  - eapply add_zero_same; [|exact Huy]. eapply (fle_finite 0 _ Y_MAX); try eassumption; exact I.
Qed.

Lemma integrate_idle_stays_witness :
  feq (x (integrate (set_input player_axis (mkInput true true false false)) dt_tick)) 100 /\
  feq (y (integrate (set_input player_axis (mkInput true true false false)) dt_tick)) 100.
Proof.
  apply (integrate_idle_stays (set_input player_axis (mkInput true true false false)) dt_tick).
  - split; reflexivity.
  - exact I.
  - exact I.
  - repeat split; reflexivity.
Defined.

(** ** Ids, labels and colours *)

Lemma choice_In {A : Type} (l : list A) (d : A) (k : nat) :
  l <> [] -> In (choice l d k) l.
Proof.
  intros Hl. unfold choice. apply nth_In. apply Nat.mod_upper_bound.
  destruct l; [congruence|discriminate].
Qed.

Lemma alphabet_NoDup : NoDup alphabet.
Proof. apply (bool_decide_unpack (NoDup alphabet)). vm_compute. exact I. Qed.

Lemma nth_map_seq {A : Type} (f : nat -> A) (d : A) (n i : nat) :
  (i < n)%nat -> nth i (map f (seq 0 n)) d = f i.
Proof.
  intros Hi. rewrite (nth_indep _ d (f 0%nat)) by (rewrite length_map, length_seq; exact Hi).
  rewrite map_nth, seq_nth by exact Hi. reflexivity.
Qed.

Lemma string_of_list_ascii_inj (l1 l2 : list ascii) :
  string_of_list_ascii l1 = string_of_list_ascii l2 -> l1 = l2.
Proof.
  intros H. rewrite <- (list_ascii_of_string_of_list_ascii l1),
    <- (list_ascii_of_string_of_list_ascii l2), H. reflexivity.
Qed.

Lemma length_string_of_list_ascii (l : list ascii) :
  String.length (string_of_list_ascii l) = length l.
Proof. induction l as [|c l IH]; cbn; [reflexivity|]. rewrite IH. reflexivity. Qed.

Lemma _rand_id_length (n : nat) (draw : nat -> nat) :
  String.length (_rand_id n draw) = n.
Proof.
  unfold _rand_id. rewrite length_string_of_list_ascii, length_map, length_seq. reflexivity.
Qed.

(** X4: [_rand_id(n)] is a string of exactly [n] characters, each an ASCII
    letter or a digit, whatever the generator draws. *)
Theorem rand_id_wellformed (n : nat) (draw : nat -> nat) :
  String.length (_rand_id n draw) = n /\
  Forall (fun c => In c alphabet) (list_ascii_of_string (_rand_id n draw)).
Proof.
  split; [apply _rand_id_length|]. unfold _rand_id.
  rewrite list_ascii_of_string_of_list_ascii. apply List.Forall_forall.
  intros c Hc. apply in_map_iff in Hc as (i & <- & _).
  apply choice_In. discriminate.
Qed.

(** X5: two ids made by [_rand_id(n)] are equal exactly when every one of
    the [n] draws picks the same index of the 62-character alphabet: the
    alphabet has no repeated character, so nothing else makes ids collide. *)
Theorem rand_id_collision (n : nat) (d1 d2 : nat -> nat) :
  _rand_id n d1 = _rand_id n d2 <->
  (forall i, (i < n)%nat -> (d1 i mod 62 = d2 i mod 62)%nat).
Proof.
  unfold _rand_id. split.
  - intros H%string_of_list_ascii_inj i Hi.
    assert (Hn : nth i (map (fun i => choice alphabet "a"%char (d1 i)) (seq 0 n)) "a"%char
                 = nth i (map (fun i => choice alphabet "a"%char (d2 i)) (seq 0 n)) "a"%char)
      by (rewrite H; reflexivity).
    rewrite !nth_map_seq in Hn by assumption.
    unfold choice in Hn.
    apply (proj1 (List.NoDup_nth alphabet "a"%char)) in Hn.
    + exact Hn.
    + apply NoDup_ListNoDup, alphabet_NoDup.
    + apply Nat.mod_upper_bound. discriminate.
    + apply Nat.mod_upper_bound. discriminate.
  - intros H. f_equal. apply map_ext_in. intros i Hi%in_seq.
    unfold choice. change (length alphabet) with 62%nat. rewrite H by lia. reflexivity.
Qed.

Lemma upper_ascii_alphabet :
  Forall (fun c => upper_ascii c ∈ upper_alphabet) alphabet.
Proof.
  apply (bool_decide_unpack (Forall (fun c => upper_ascii c ∈ upper_alphabet) alphabet)).
  vm_compute. exact I.
Qed.

Lemma upper_ascii_choice (k : nat) :
  In (upper_ascii (choice alphabet "a"%char k)) upper_alphabet.
Proof.
  apply list_elem_of_In.
  apply (proj1 (Forall_forall _ _) upper_ascii_alphabet).
  apply list_elem_of_In, choice_In. discriminate.
Qed.

(** X6: the player that [connect] creates, whatever the generator draws: its
    id has six characters; its label is ["P"] followed by the first two
    characters of the id in upper case, three characters in all, the last
    two being capital letters or digits; its colour is one of the six of the
    palette; it has the default speed and no input flag set. *)
Theorem new_player_wellformed (r : Rand) :
  let p := new_player r in
  String.length (id p) = 6%nat /\
  label p = ("P" ++ upper (substring 0 2 (id p)))%string /\
  String.length (label p) = 3%nat /\
  (exists c1 c2,
     label p = String "P" (String c1 (String c2 EmptyString)) /\
     In c1 upper_alphabet /\ In c2 upper_alphabet) /\
  In (color p) palette /\
  speed p = DEFAULT_PLAYER_SPEED /\
  input p = mkInput false false false false.
Proof.
  cbv zeta. split; [apply _rand_id_length|].
  split; [reflexivity|]. split; [reflexivity|].
  split.
  - exists (upper_ascii (choice alphabet "a"%char (id_draw r 0%nat))),
           (upper_ascii (choice alphabet "a"%char (id_draw r 1%nat))).
    split; [reflexivity|]. split; apply upper_ascii_choice.
  - split; [|split; reflexivity].
    apply choice_In. discriminate.
Qed.

(** ** Players, snapshots and targets *)

Lemma keyed_insert (h : Hub) (pid : string) (p : Player) :
  keyed h -> id p = pid -> keyed (set_players h (<[pid := p]> (players h))).
Proof.
  intros Hk Hp q p'. cbn. rewrite lookup_insert. case_decide.
  - intros [= <-]. congruence.
  - apply Hk.
Qed.

Lemma keyed_ticked (now : float) (h : Hub) : keyed h -> keyed (ticked now h).
Proof.
  intros Hk q p'. cbn. rewrite lookup_fmap.
  destruct (players h !! q) as [p|] eqn:Hp; [|discriminate].
  cbn. intros [= <-]. destruct (integrate_keeps p (tick_dt now h)) as [-> _].
  apply Hk, Hp.
Qed.

Lemma _ticker_loop_keyed (env : Env) (n : nat) : forall h hist,
  keyed h -> keyed (hub_of (_ticker_loop env n h hist)).
Proof.
  induction n as [|n IH]; intros h hist Hk; [exact Hk|].
  cbn [_ticker_loop]. unfold bind. rewrite _ticker_iteration_run. cbn [res hub_of emitted].
  destruct (_tick_task h) as [[]|]; cbn [hub_of];
    try (apply IH, keyed_ticked, Hk).
  apply keyed_ticked, Hk.
Qed.

Lemma _ticker_keyed (env : Env) (n : nat) (h : Hub) (hist : list event) :
  keyed h -> keyed (hub_of (_ticker env n h hist)).
Proof.
  intros Hk. unfold _ticker, perf_counter.
  rewrite bind_assoc, bind_history, bind_assoc, bind_emit, bind_ret. cbn [hub_of].
  rewrite bind_get, bind_put. unfold try_except.
  match goal with |- context [_ticker_loop env n ?a ?b] =>
    pose proof (_ticker_loop_keyed env n a b) as Hl;
    destruct (_ticker_loop env n a b) as [[[]|e] h' em] end; cbn in *.
  - apply Hl. exact Hk.
  - destruct e; cbn; apply Hl; exact Hk.
Qed.

Lemma run_op_keyed (env : Env) (o : op) (h : Hub) (hist : list event) :
  keyed h -> keyed (hub_of (run_op env o h hist)).
Proof.
  intros Hk. destruct o as [| |ws r|pid|pid data|n].
  - cbn [run_op]. intros q p. destruct (start_hub h hist) as [-> _]. apply Hk.
  - cbn [run_op]. intros q p. destruct (stop_hub h hist) as [-> _]. apply Hk.
  - rewrite run_op_connect_hub.
    destruct (connect_hub env ws r h hist) as [->| ->]; [exact Hk|].
    intros q p. cbn [registered players]. rewrite lookup_insert. case_decide.
    + intros [= <-]. assumption.
    + apply Hk.
  - cbn [run_op]. rewrite disconnect_run. cbn [hub_of]. intros q p Hq.
    cbn [removed players] in Hq.
    apply lookup_delete_Some in Hq as [_ Hq]. apply Hk, Hq.
  - cbn [run_op]. destruct (handle_message_hub pid data h hist) as [->|(p & Hp & ->)];
      [exact Hk|].
    apply keyed_insert; [exact Hk|]. exact (Hk pid p Hp).
  - cbn [run_op]. apply _ticker_keyed, Hk.
Qed.

Lemma keyed_snap_ids (h : Hub) :
  keyed h -> snap_id <$> snapshots h = (map_to_list (players h)).*1.
Proof.
  intros Hk. unfold snapshots. rewrite <- list_fmap_compose.
  apply Forall_fmap_ext_1, Forall_forall. intros [q p] Hqp. cbn.
  apply elem_of_map_to_list in Hqp. apply Hk, Hqp.
Qed.

(** X7: every player is stored under its own id: this holds in the initial
    hub and is kept by every operation (registration uses the id of the new
    player; [integrate] and the input update keep the id), hence after every
    sequence of operations; and then the snapshots of one state frame carry
    pairwise distinct ids. *)
Theorem keyed_invariant :
  keyed Hub_init /\
  (forall env o h hist, keyed h -> keyed (hub_of (run_op env o h hist))) /\
  (forall env ops hist, keyed (run_ops env ops Hub_init hist).1) /\
  (forall h, keyed h -> NoDup (snap_id <$> snapshots h)).
Proof.
  assert (H0 : keyed Hub_init).
  { intros q p. cbn [Hub_init players]. rewrite lookup_empty. discriminate. }
  split; [exact H0|]. split; [intros; apply run_op_keyed; assumption|]. split.
  - intros env ops hist.
    apply (run_ops_invariant env keyed (fun _ => True)).
    + intros; apply run_op_keyed; assumption.
    + apply Forall_forall. auto.
    + exact H0.
  - intros h Hk. rewrite (keyed_snap_ids h Hk). apply NoDup_fst_map_to_list.
Qed.

(** X8: the list of snapshots built for a state or welcome frame holds one
    snapshot per registered player, and exactly the snapshots of the
    registered players. *)
Theorem snapshots_complete (h : Hub) :
  length (snapshots h) = size (players h) /\
  (forall s, s ∈ snapshots h <->
             exists pid p, players h !! pid = Some p /\ s = snapshot p).
Proof.
  unfold snapshots. split.
  - rewrite length_fmap. apply length_map_to_list.
  - intros s. rewrite list_elem_of_fmap. split.
    + intros ([q p] & -> & Hqp). apply elem_of_map_to_list in Hqp. eauto.
    + intros (q & p & Hp & ->). exists (q, p). split; [reflexivity|].
      apply elem_of_map_to_list, Hp.
Qed.

Lemma filter_all {A : Type} (P : A -> Prop) `{forall a, Decision (P a)} (l : list A) :
  (forall a, P a) -> filter P l = l.
Proof.
  intros HP. induction l as [|a l IH]; [reflexivity|].
  rewrite filter_cons_True by apply HP. rewrite IH. reflexivity.
Qed.

Lemma targets_elem (exclude : option (list string)) (h : Hub) (q : string) (ws : WebSocket) :
  (q, ws) ∈ targets exclude h <-> sockets h !! q = Some ws /\ is_target exclude q = true.
Proof.
  unfold targets. rewrite list_elem_of_filter, elem_of_map_to_list. cbn. tauto.
Qed.

Lemma is_target_singleton (pid q : string) :
  is_target (Some [pid]) q = true <-> q <> pid.
Proof.
  cbn. rewrite negb_true_iff, bool_decide_eq_false, list_elem_of_singleton. tauto.
Qed.

Lemma targets_all (h : Hub) : targets None h = map_to_list (sockets h).
Proof. unfold targets. apply filter_all. reflexivity. Qed.

(** X9: the targets of [_broadcast_event] are the registered connections
    whose id is not excluded, each at most once; without an exclude set, or
    with an empty one, they are all the registered connections; with the set
    [{pid}] they are all but the one of [pid]. *)
Theorem targets_spec (exclude : option (list string)) (h : Hub) :
  (forall q ws, (q, ws) ∈ targets exclude h <->
                sockets h !! q = Some ws /\ is_target exclude q = true) /\
  NoDup (targets exclude h).*1 /\
  targets None h = map_to_list (sockets h) /\
  targets (Some []) h = map_to_list (sockets h) /\
  (forall pid q ws, (q, ws) ∈ targets (Some [pid]) h <->
                    q <> pid /\ sockets h !! q = Some ws).
Proof.
  split; [apply targets_elem|]. split; [|split; [|split]].
  - unfold targets. eapply sublist_NoDup;
      [apply (NoDup_fst_map_to_list (sockets h))|apply fmap_sublist, sublist_filter].
  - apply targets_all.
  - unfold targets. apply filter_all. reflexivity.
  - intros pid q ws. rewrite targets_elem, is_target_singleton. tauto.
Qed.

(** ** Connecting and disconnecting *)

Lemma elem_of_sends (msg : Msg) (l : list (string * WebSocket)) (ws : WebSocket) (m : Msg) :
  EvSend ws m ∈ sends msg l <-> m = msg /\ exists q, (q, ws) ∈ l.
Proof.
  unfold sends. rewrite list_elem_of_fmap. split.
  - intros ([q ws'] & [= -> ->] & Hin). eauto.
  - intros (-> & q & Hin). exists (q, ws). auto.
Qed.

Lemma connect_prefix_sends (ws : WebSocket) (r : Rand) (h : Hub) (ws' : WebSocket) (m : Msg) :
  EvSend ws' m ∈ connect_prefix ws r h ->
  ws' = ws /\ m = MsgWelcome (id (new_player r)) (snapshots (registered ws r h)).
Proof.
  unfold connect_prefix. rewrite !elem_of_cons.
  intros [H|[H|[H|[H|[H|[H|[H|H]]]]]]]; try discriminate.
  - injection H as -> ->. auto.
  - apply elem_of_nil in H. contradiction.
Qed.

(** X10: a [connect] that returns has sent, in this order, the welcome frame
    to the new connection, holding the new id and a world in which the new
    player already appears, and then one join frame to each connection that
    was registered before under another id, and to no other. *)
Theorem connect_notifies_others (env : Env) (ws : WebSocket) (r : Rand) (h : Hub)
    (hist : list event) (pid : string) :
  res (connect env ws r h hist) = Ok pid ->
  pid = id (new_player r) /\
  emitted (connect env ws r h hist)
  = connect_prefix ws r h
      ++ EvRead RSockets :: sends (MsgJoin pid) (targets (Some [pid]) (registered ws r h)) /\
  snapshot (new_player r) ∈ snapshots (registered ws r h) /\
  (forall ws' pid', EvSend ws' (MsgJoin pid') ∈ emitted (connect env ws r h hist) <->
     pid' = pid /\ exists q, q <> pid /\ sockets h !! q = Some ws').
Proof.
  intros Hok. destruct (connect_ok env ws r h hist pid Hok) as [-> _].
  split; [reflexivity|]. revert Hok. rewrite (connect_run env ws r h hist).
  destruct (accept_fails env hist ws); [discriminate|].
  match goal with |- context [send_fails env ?a ?b ?c] => destruct (send_fails env a b c) end;
    [discriminate|].
  intros _. cbn [emitted]. split; [reflexivity|]. split.
  - unfold snapshots. apply list_elem_of_fmap.
    exists (id (new_player r), new_player r). split; [reflexivity|].
    apply elem_of_map_to_list. cbn [registered players]. apply lookup_insert_eq.
  - intros ws' pid'. rewrite elem_of_app, elem_of_cons, elem_of_sends. split.
    + intros [H|[H|([= ->] & q & Hq)]].
      * apply connect_prefix_sends in H as [_ H]. discriminate.
      * discriminate.
      * split; [reflexivity|]. exists q.
        apply targets_elem in Hq as [Hq Ht]. apply is_target_singleton in Ht.
        split; [exact Ht|]. cbn [registered sockets] in Hq.
        rewrite lookup_insert_ne in Hq by congruence. exact Hq.
    + intros (-> & q & Hne & Hq). right. right. split; [reflexivity|]. exists q.
      apply targets_elem. split; [|apply is_target_singleton, Hne].
      cbn [registered sockets]. rewrite lookup_insert_ne by congruence. exact Hq.
Qed.

Lemma connect_notifies_others_witness :
  emitted (connect env_ok (Socket 2) rand_b hub_one [])
  = connect_prefix (Socket 2) rand_b hub_one
      ++ EvRead RSockets
      :: sends (MsgJoin "hjlnpr") (targets (Some ["hjlnpr"%string]) (registered (Socket 2) rand_b hub_one)).
Proof.
  apply (connect_notifies_others env_ok (Socket 2) rand_b hub_one [] "hjlnpr").
  reflexivity.
Defined.

(** X11: a [connect] that raises has failed in one of two places.  If
    [ws.accept()] raised, nothing was registered and nothing was sent.  If
    the welcome frame could not be sent, the exception is not absorbed (the
    send is not a [_safe_send]), the player and its socket stay registered,
    and no join frame was sent. *)
Theorem connect_failure (env : Env) (ws : WebSocket) (r : Rand) (h : Hub)
    (hist : list event) (e : exn) :
  res (connect env ws r h hist) = Raise e ->
  (accept_fails env hist ws = Some e /\
   hub_of (connect env ws r h hist) = h /\
   emitted (connect env ws r h hist) = [EvAccept ws]) \/
  (accept_fails env hist ws = None /\
   hub_of (connect env ws r h hist) = registered ws r h /\
   players (hub_of (connect env ws r h hist)) !! id (new_player r) = Some (new_player r) /\
   sockets (hub_of (connect env ws r h hist)) !! id (new_player r) = Some ws /\
   emitted (connect env ws r h hist) = connect_prefix ws r h /\
   (forall ws' pid', EvSend ws' (MsgJoin pid') ∉ emitted (connect env ws r h hist))).
Proof.
  rewrite (connect_run env ws r h hist).
  destruct (accept_fails env hist ws) as [e'|].
  - intros [= ->]. left. auto.
  - match goal with |- context [send_fails env ?a ?b ?c] => destruct (send_fails env a b c) end;
      [|discriminate].
    intros [= ->]. right. cbn [hub_of emitted].
    split; [reflexivity|]. split; [reflexivity|].
    split; [apply lookup_insert_eq|]. split; [apply lookup_insert_eq|].
    split; [reflexivity|].
    intros ws' pid' H. apply connect_prefix_sends in H as [_ H]. discriminate.
Qed.

Lemma connect_failure_witness :
  players (hub_of (connect env_no_welcome (Socket 1) rand_a Hub_init [])) !! "abcdef"%string
  = Some (new_player rand_a).
Proof.
  destruct (connect_failure env_no_welcome (Socket 1) rand_a Hub_init [] WebSocketDisconnect
              eq_refl) as [(H & _)|(_ & _ & H & _)].
  - discriminate H.
  - exact H.
Defined.

Lemma removed_registered (ws : WebSocket) (r : Rand) (h : Hub) :
  removed (id (new_player r)) (registered ws r h) = removed (id (new_player r)) h.
Proof. unfold removed, registered; cbn. rewrite !delete_insert_eq. reflexivity. Qed.

Lemma removed_fresh (pid : string) (h : Hub) :
  players h !! pid = None -> sockets h !! pid = None -> removed pid h = h.
Proof.
  intros Hp Hs. unfold removed. rewrite (delete_id _ _ Hp), (delete_id _ _ Hs).
  destruct h; reflexivity.
Qed.

(** X12: [connect] followed by [disconnect] of the id it drew leaves the hub
    as it was before the [connect], when that id was not in use; this holds
    whatever the transport did, also when [connect] itself raised. *)
Theorem connect_disconnect_round_trip (env : Env) (ws : WebSocket) (r : Rand) (h : Hub)
    (hist : list event) :
  players h !! id (new_player r) = None ->
  sockets h !! id (new_player r) = None ->
  let c := connect env ws r h hist in
  let d := disconnect env (id (new_player r)) (hub_of c) (hist ++ emitted c) in
  res d = Ok tt /\ hub_of d = h.
Proof.
  intros Hp Hs c d. subst d. rewrite disconnect_run. cbn [res hub_of].
  split; [reflexivity|]. subst c.
  destruct (connect_hub env ws r h hist) as [->| ->].
  - apply removed_fresh; assumption.
  - rewrite removed_registered. apply removed_fresh; assumption.
Qed.

Lemma connect_disconnect_round_trip_witness :
  hub_of (disconnect env_down "hjlnpr"
            (hub_of (connect env_down (Socket 2) rand_b hub_one []))
            ([] ++ emitted (connect env_down (Socket 2) rand_b hub_one [])))
  = hub_one.
Proof.
  apply (connect_disconnect_round_trip env_down (Socket 2) rand_b hub_one []); reflexivity.
Defined.

(** X13: [disconnect(pid)] sends the leave frame once to every connection
    that remains registered, that is to every registered connection of
    another id, and never to one registered only under [pid]; a failing send
    changes nothing to that. *)
Theorem disconnect_notifies_remaining (env : Env) (pid : string) (h : Hub)
    (hist : list event) :
  emitted (disconnect env pid h hist)
  = [EvAcquire; EvWrite RPlayers; EvWrite RSockets; EvRelease; EvRead RSockets]
      ++ sends (MsgLeave pid) (map_to_list (delete pid (sockets h))) /\
  (forall ws m, EvSend ws m ∈ emitted (disconnect env pid h hist) <->
     m = MsgLeave pid /\ exists q, q <> pid /\ sockets h !! q = Some ws) /\
  length (sends (MsgLeave pid) (map_to_list (delete pid (sockets h))))
  = size (delete pid (sockets h)).
Proof.
  rewrite disconnect_run, targets_all. cbn [emitted removed sockets].
  split; [reflexivity|]. split.
  - intros ws m. rewrite elem_of_app, elem_of_sends. split.
    + intros [H|(-> & q & Hq)].
      * rewrite !elem_of_cons in H.
        destruct H as [H|[H|[H|[H|[H|H]]]]]; try discriminate.
        apply elem_of_nil in H. contradiction.
      * split; [reflexivity|]. exists q.
        apply elem_of_map_to_list, lookup_delete_Some in Hq as [Hne Hq]. auto.
    + intros (-> & q & Hne & Hq). right. split; [reflexivity|]. exists q.
      apply elem_of_map_to_list, lookup_delete_Some. auto.
  - unfold sends. rewrite length_fmap. apply length_map_to_list.
Qed.

(** ** Messages, the tick task and its clock *)

Lemma with_input_with_input (pid : string) (p : Player) (d1 d2 : gmap string pyval) (h : Hub) :
  with_input pid (set_input p (input_of d1)) d2 (with_input pid p d1 h)
  = with_input pid p d2 h.
Proof.
  unfold with_input, set_players; cbn. rewrite insert_insert_eq. reflexivity.
Qed.

(** X14: the last valid input message wins: after any message for [pid]
    (accepted or discarded), a well-formed input message for [pid] leaves
    the hub exactly as if it had been the only one; flags are replaced, not
    accumulated. *)
Theorem handle_message_last_wins (pid : string) (d1 d2 : gmap string pyval)
    (h : Hub) (hist hist' : list event) :
  dict_get d2 "type" = PStr "input" ->
  dict_get d2 "id" = PStr pid ->
  hub_of (handle_message pid d2 (hub_of (handle_message pid d1 h hist)) hist')
  = hub_of (handle_message pid d2 h hist').
Proof.
  intros Ht Hi.
  destruct (handle_message_hub pid d1 h hist) as [->|(p & Hp & ->)]; [reflexivity|].
  rewrite (handle_message_accepted pid d2 p h hist' Ht Hi Hp).
  rewrite (handle_message_accepted pid d2 (set_input p (input_of d1))
             (with_input pid p d1 h) hist' Ht Hi)
    by (cbn; apply lookup_insert_eq).
  cbn [hub_of]. apply with_input_with_input.
Qed.

Lemma handle_message_last_wins_witness :
  hub_of (handle_message "abcdef" data_left
            (hub_of (handle_message "abcdef" data_forged hub_two [])) [])
  = hub_of (handle_message "abcdef" data_left hub_two []).
Proof.
  apply (handle_message_last_wins "abcdef" data_forged data_left hub_two [] []);
    reflexivity.
Defined.

(** X15: [start] never raises, creates the tick task only when the hub has
    none, keeps an existing task as it is (also one that was asked to
    cancel), leaves the world untouched, and a second [start] changes
    nothing. *)
Theorem start_idempotent (h : Hub) (hist hist' : list event) :
  let h' := hub_of (start h hist) in
  res (start h hist) = Ok tt /\
  emitted (start h hist) = [] /\
  (_tick_task h = None -> _tick_task h' = Some TaskRunning) /\
  (forall t, _tick_task h = Some t -> h' = h) /\
  players h' = players h /\ sockets h' = sockets h /\ _last_tick h' = _last_tick h /\
  start h' hist' = mkResult (Ok tt) h' [].
Proof.
  cbv zeta. rewrite !start_run. cbn [res emitted hub_of].
  destruct (_tick_task h) as [t|] eqn:Ht.
  - rewrite Ht. repeat split; congruence.
  - cbn. repeat split; congruence.
Qed.

(** X16: once [stop] has been called on a hub with a tick task, a later
    [start] does not create a new one: [stop] fails before it clears the
    handle, and [start] only looks at whether the handle is set. *)
Theorem stop_then_start_stale (h : Hub) (hist hist' : list event) (t : Task) :
  _tick_task h = Some t ->
  let h' := hub_of (start (hub_of (stop h hist)) hist') in
  _tick_task h' = Some TaskCancelling /\
  players h' = players h /\ sockets h' = sockets h.
Proof.
  intros Ht. cbv zeta. rewrite (stop_run h hist t Ht), start_run. cbn. auto.
Qed.

Lemma stop_then_start_stale_witness :
  _tick_task (hub_of (start (hub_of (stop hub_one [])) [])) = Some TaskCancelling.
Proof. apply (stop_then_start_stale hub_one [] [] TaskRunning). reflexivity. Defined.




Lemma SFsub_diag (sg : bool) (m : positive) (e : Z) :
  SFsub prec emax (S754_finite sg m e) (S754_finite sg m e) = S754_zero false.
Proof.
  cbn [SFsub]. rewrite Z.min_id. unfold shl_align. rewrite Z.sub_diag. cbn [fst].
  reflexivity.
Qed.

Lemma sub_diag_finite (a : float) : finite a -> Prim2SF (a - a) = S754_zero false.
Proof.
  unfold finite. intros Ha. rewrite sub_spec.
  destruct (Prim2SF a) as [[]| | |sg m e]; try contradiction; try reflexivity.
  apply SFsub_diag.
Qed.

(** X18: one turn of the tick loop integrates every player with one and the
    same [dt], which is never above [0.1], records the clock reading as the
    last tick, and leaves the sockets as they were. *)
Theorem ticker_iteration_step (env : Env) (h : Hub) (hist : list event) :
  let h' := hub_of (_ticker_iteration env h hist) in
  exists dt,
    (0x1.999999999999ap-4 <? dt)%float = false /\
    players h' = (fun p => integrate p dt) <$> players h /\
    sockets h' = sockets h /\
    _last_tick h' = Some (clock env hist).
Proof.
  cbv zeta. rewrite _ticker_iteration_run. cbn [hub_of].
  exists (tick_dt (clock env hist) h). split; [|repeat split].
  unfold tick_dt, py_min.
  destruct (0x1.999999999999ap-4 <? clock env hist - last_or (_last_tick h) (clock env hist))%float
    eqn:Hlt; [reflexivity|exact Hlt].
Qed.

(** X19: [self._last_tick or now] takes a last tick recorded at clock reading
    [0.0] for a missing one: the elapsed time of the turn is then zero,
    whatever the (finite) clock reads now. *)
Theorem tick_dt_zero_last_tick (now : float) (h : Hub) :
  finite now ->
  (_last_tick h = None \/ exists t, _last_tick h = Some t /\ feq t 0) ->
  Prim2SF (tick_dt now h) = S754_zero false.
Proof.
  intros Hn Hl.
  assert (Hlast : last_or (_last_tick h) now = now).
  { destruct Hl as [->|(t & -> & Ht)]; [reflexivity|].
    unfold last_or, fneq. unfold feq in Ht. rewrite Ht. reflexivity. }
  unfold tick_dt, py_min. rewrite Hlast.
  pose proof (sub_diag_finite now Hn) as Hz.
  rewrite ltb_spec, Hz. cbn. exact Hz.
Qed.

Lemma tick_dt_zero_last_tick_witness :
  Prim2SF (tick_dt 1000 (set_last_tick hub_one (Some 0%float))) = S754_zero false.
Proof.
  apply (tick_dt_zero_last_tick 1000 (set_last_tick hub_one (Some 0%float))).
  - exact I.
  - right. exists 0%float. split; reflexivity.
Defined.

(** ** The connection endpoint *)

(** The hub after the frames of a session: the one before, with some input
    stored for the player of the session. *)
Lemma handle_message_run (pid : string) (data : gmap string pyval) (h : Hub)
    (hist : list event) :
  exists h1 em,
    handle_message pid data h hist = mkResult (Ok tt) h1 em /\
    (h1 = h \/ exists p, players h !! pid = Some p /\ h1 = with_input pid p data h).
Proof.
  destruct (py_ne_str (dict_get data "type") "input") eqn:Ht.
  { exists h, []. unfold handle_message. rewrite Ht. split; [reflexivity|left; reflexivity]. }
  destruct (py_ne_str (dict_get data "id") pid) eqn:Hi.
  { exists h, []. unfold handle_message. rewrite Ht, Hi.
    split; [reflexivity|left; reflexivity]. }
  apply py_ne_str_false in Ht, Hi.
  destruct (players h !! pid) as [p|] eqn:Hp.
  - eexists _, _. split; [apply (handle_message_accepted pid data p h hist Ht Hi Hp)|].
    right. exists p. auto.
  - exists h, [EvAcquire; EvRead RPlayers; EvRelease]. split; [|left; reflexivity].
    unfold handle_message. apply py_ne_str_false in Ht, Hi. rewrite Ht, Hi.
    unfold with_lock, bind; cbn. rewrite Hp. reflexivity.
Qed.

Lemma set_players_same (h : Hub) (p : Player) (pid : string) :
  players h !! pid = Some p ->
  set_players h (<[pid := set_input p (input p)]> (players h)) = h.
Proof.
  intros Hp. replace (set_input p (input p)) with p by (destruct p; reflexivity).
  rewrite insert_id by exact Hp. destruct h; reflexivity.
Qed.

Lemma receive_loop_run (loads : string -> option pyval) (pid : string)
    (incoming : list received) : forall (h : Hub) (hist : list event) (p : Player),
  players h !! pid = Some p ->
  res (receive_loop loads pid incoming h hist)
  = match session_end loads incoming with Some e => Raise e | None => Ok tt end /\
  exists i,
    hub_of (receive_loop loads pid incoming h hist)
    = set_players h (<[pid := set_input p i]> (players h)).
Proof.
  induction incoming as [|[raw|e] rest IH]; intros h hist p Hp.
  - split; [reflexivity|]. exists (input p). cbn. symmetry. apply set_players_same, Hp.
  - cbn [receive_loop session_end]. destruct (loads raw) as [v|]; [|apply IH, Hp].
    unfold handle_decoded. destruct (as_dict v) as [data|].
    + destruct (handle_message_run pid data h hist) as (h1 & em & Hrun & Hh1).
      rewrite (bind_ok _ _ _ _ _ _ _ Hrun). cbn [res hub_of].
      destruct Hh1 as [->|(p' & Hp' & ->)]; [apply IH, Hp|].
      assert (p' = p) as -> by congruence.
      destruct (IH (with_input pid p data h) (hist ++ em) (set_input p (input_of data)))
        as [Hres [i Hhub]]; [cbn; apply lookup_insert_eq|].
      split; [exact Hres|]. exists i. rewrite Hhub.
      unfold with_input, set_players; cbn. rewrite insert_insert_eq. reflexivity.
    + rewrite bind_raise'. cbn [res hub_of]. split; [reflexivity|].
      exists (input p). symmetry. apply set_players_same, Hp.
  - split; [reflexivity|]. exists (input p). cbn. symmetry. apply set_players_same, Hp.
Qed.

Lemma removed_steered (pid : string) (p : Player) (h : Hub) :
  removed pid (set_players h (<[pid := p]> (players h))) = removed pid h.
Proof. unfold removed, set_players; cbn. rewrite delete_insert_eq. reflexivity. Qed.

Lemma session_end_app (loads : string -> option pyval) (pre post : list received) :
  session_end loads (pre ++ post)
  = match session_end loads pre with
    | Some e => Some e
    | None => session_end loads post
    end.
Proof.
  induction pre as [|[raw|e] pre IH]; [reflexivity| |reflexivity].
  cbn [app session_end]. destruct (loads raw) as [v|]; [|exact IH].
  destruct (as_dict v); [exact IH|reflexivity].
Qed.

(** What [ws_endpoint] does once [connect] has returned. *)
Lemma ws_endpoint_run (env : Env) (loads : string -> option pyval) (ws : WebSocket)
    (r : Rand) (incoming : list received) (h : Hub) (hist : list event) (pid : string) :
  res (connect env ws r h hist) = Ok pid ->
  exists i,
    let h2 := set_players (registered ws r h)
                (<[pid := set_input (new_player r) i]> (players (registered ws r h))) in
    pid = id (new_player r) /\
    match session_end loads incoming with
    | None =>
        res (ws_endpoint env loads ws r incoming h hist) = Ok tt /\
        hub_of (ws_endpoint env loads ws r incoming h hist) = h2
    | Some e =>
        if is_Exception e then
          res (ws_endpoint env loads ws r incoming h hist) = Ok tt /\
          hub_of (ws_endpoint env loads ws r incoming h hist) = removed pid h
        else
          res (ws_endpoint env loads ws r incoming h hist) = Raise e /\
          hub_of (ws_endpoint env loads ws r incoming h hist) = h2
    end.
Proof.
  intros Hok. destruct (connect_ok env ws r h hist pid Hok) as [-> Hhub].
  destruct (connect env ws r h hist) as [rc hc emc] eqn:Hc. cbn [res hub_of] in Hok, Hhub.
  subst rc hc.
  destruct (receive_loop_run loads (id (new_player r)) incoming (registered ws r h)
              (hist ++ emc) (new_player r)) as [Hres [i Hh2]];
    [cbn; apply lookup_insert_eq|].
  exists i. cbv zeta. split; [reflexivity|].
  unfold ws_endpoint. rewrite (bind_ok _ _ _ _ _ _ _ Hc). cbn [res hub_of].
  unfold try_except.
  destruct (receive_loop loads (id (new_player r)) incoming (registered ws r h) (hist ++ emc))
    as [rl hl eml]. cbn [res hub_of emitted] in *. subst hl.
  destruct (session_end loads incoming) as [e|]; subst rl; cbn [res hub_of].
  - destruct (is_Exception e).
    + rewrite disconnect_run. cbn [res hub_of]. split; [reflexivity|].
      rewrite removed_steered. apply removed_registered.
    + split; reflexivity.
  - split; reflexivity.
Qed.

(** X20: when the receive loop of [ws_endpoint] ends with an [Exception]
    (the peer went away, a receive failed, a handler raised), the endpoint
    returns normally and the hub is the one before the session with the id
    of the session removed from both maps: nothing the frames stored is
    left; if the id was not in use before, the hub is as before. *)
Theorem ws_endpoint_cleans_up (env : Env) (loads : string -> option pyval)
    (ws : WebSocket) (r : Rand) (incoming : list received) (h : Hub)
    (hist : list event) (pid : string) (e : exn) :
  res (connect env ws r h hist) = Ok pid ->
  session_end loads incoming = Some e ->
  is_Exception e = true ->
  let h' := hub_of (ws_endpoint env loads ws r incoming h hist) in
  res (ws_endpoint env loads ws r incoming h hist) = Ok tt /\
  h' = removed pid h /\
  players h' !! pid = None /\ sockets h' !! pid = None /\
  (players h !! pid = None -> sockets h !! pid = None -> h' = h).
Proof.
  intros Hok He Hex. cbv zeta.
  destruct (ws_endpoint_run env loads ws r incoming h hist pid Hok) as (i & _ & H).
  cbv zeta in H. rewrite He, Hex in H. destruct H as [-> ->].
  split; [reflexivity|]. split; [reflexivity|].
  split; [apply lookup_delete_eq|]. split; [apply lookup_delete_eq|].
  apply removed_fresh.
Qed.

Lemma ws_endpoint_cleans_up_witness :
  hub_of (ws_endpoint env_ok loads_example (Socket 2) rand_b
            [RecvText "left"; RecvText "{"; RecvRaise WebSocketDisconnect] hub_one [])
  = hub_one.
Proof.
  apply (ws_endpoint_cleans_up env_ok loads_example (Socket 2) rand_b
           [RecvText "left"; RecvText "{"; RecvRaise WebSocketDisconnect] hub_one []
           "hjlnpr" WebSocketDisconnect); reflexivity.
Defined.

(** X21: a frame that decodes to something else than a dict (a list, a
    number, a string, [null]) ends the session: [data.get] raises
    [AttributeError], which the endpoint takes for a reason to disconnect;
    the frames after it are never read. *)
Theorem ws_endpoint_non_dict_frame (env : Env) (loads : string -> option pyval)
    (ws : WebSocket) (r : Rand) (pre rest : list received) (raw : string) (v : pyval)
    (h : Hub) (hist : list event) (pid : string) :
  res (connect env ws r h hist) = Ok pid ->
  session_end loads pre = None ->
  loads raw = Some v ->
  as_dict v = None ->
  res (ws_endpoint env loads ws r (pre ++ RecvText raw :: rest) h hist) = Ok tt /\
  hub_of (ws_endpoint env loads ws r (pre ++ RecvText raw :: rest) h hist) = removed pid h /\
  hub_of (ws_endpoint env loads ws r (pre ++ RecvText raw :: rest) h hist)
  = hub_of (ws_endpoint env loads ws r (pre ++ [RecvText raw]) h hist).
Proof.
  intros Hok Hpre Hraw Hv.
  assert (Hend : forall post,
            session_end loads (pre ++ RecvText raw :: post)
            = Some (OtherException "AttributeError")).
  { intros post. rewrite session_end_app, Hpre. cbn [session_end]. rewrite Hraw, Hv.
    reflexivity. }
  destruct (ws_endpoint_run env loads ws r (pre ++ RecvText raw :: rest) h hist pid Hok)
    as (i & _ & H).
  destruct (ws_endpoint_run env loads ws r (pre ++ [RecvText raw]) h hist pid Hok)
    as (j & _ & H').
  cbv zeta in H, H'. rewrite Hend in H, H'. cbn [is_Exception] in H, H'.
  destruct H as [-> ->], H' as [_ ->]. auto.
Qed.

Lemma ws_endpoint_non_dict_frame_witness :
  res (ws_endpoint env_ok loads_example (Socket 2) rand_b
         ([RecvText "left"] ++ RecvText "[]" :: [RecvText "left"]) hub_one []) = Ok tt /\
  hub_of (ws_endpoint env_ok loads_example (Socket 2) rand_b
            ([RecvText "left"] ++ RecvText "[]" :: [RecvText "left"]) hub_one [])
  = removed "hjlnpr" hub_one.
Proof.
  destruct (ws_endpoint_non_dict_frame env_ok loads_example (Socket 2) rand_b
              [RecvText "left"] [RecvText "left"] "[]" (PList []) hub_one [] "hjlnpr"
              eq_refl eq_refl eq_refl eq_refl) as (H1 & H2 & _).
  split; [exact H1|exact H2].
Defined.

(** X22: when the receive loop ends with an exception that is not an
    [Exception] (the task is cancelled), neither handler of [ws_endpoint]
    runs: the exception leaves the endpoint, [disconnect] is not called, and
    the player and its socket stay registered. *)
Theorem ws_endpoint_cancelled (env : Env) (loads : string -> option pyval)
    (ws : WebSocket) (r : Rand) (incoming : list received) (h : Hub)
    (hist : list event) (pid : string) (e : exn) :
  res (connect env ws r h hist) = Ok pid ->
  session_end loads incoming = Some e ->
  is_Exception e = false ->
  let h' := hub_of (ws_endpoint env loads ws r incoming h hist) in
  res (ws_endpoint env loads ws r incoming h hist) = Raise e /\
  e = CancelledError /\
  sockets h' !! pid = Some ws /\
  exists i, players h' !! pid = Some (set_input (new_player r) i).
Proof.
  intros Hok He Hex. cbv zeta.
  destruct (ws_endpoint_run env loads ws r incoming h hist pid Hok) as (i & -> & H).
  cbv zeta in H. rewrite He, Hex in H. destruct H as [-> ->].
  split; [reflexivity|]. split; [destruct e; try discriminate; reflexivity|].
  split; [apply lookup_insert_eq|].
  exists i. apply lookup_insert_eq.
Qed.

Lemma ws_endpoint_cancelled_witness :
  sockets (hub_of (ws_endpoint env_ok loads_example (Socket 2) rand_b
                     [RecvText "left"; RecvRaise CancelledError] hub_one []))
    !! "hjlnpr"%string
  = Some (Socket 2).
Proof.
  apply (ws_endpoint_cancelled env_ok loads_example (Socket 2) rand_b
           [RecvText "left"; RecvRaise CancelledError] hub_one [] "hjlnpr" CancelledError);
    reflexivity.
Defined.

Lemma ws_endpoint_raise (env : Env) (loads : string -> option pyval)
    (ws : WebSocket) (r : Rand) (incoming : list received) (h : Hub)
    (hist : list event) (e : exn) :
  res (connect env ws r h hist) = Raise e ->
  ws_endpoint env loads ws r incoming h hist
  = mkResult (Raise e) (hub_of (connect env ws r h hist)) (emitted (connect env ws r h hist)).
Proof.
  intros He. unfold ws_endpoint.
  destruct (connect env ws r h hist) as [rc hc emc] eqn:Hc. cbn [res hub_of emitted] in *.
  subst rc. apply (bind_raise _ _ _ _ _ _ _ Hc).
Qed.

(** X23: [connect] is called outside the [try] of [ws_endpoint]: when it
    raises, the endpoint raises the same exception without reading a frame
    and without calling [disconnect]; if the failure was that of the welcome
    frame, the player and its socket stay registered when the endpoint has
    ended. *)
Theorem ws_endpoint_connect_failure (env : Env) (loads : string -> option pyval)
    (ws : WebSocket) (r : Rand) (incoming : list received) (h : Hub)
    (hist : list event) (e : exn) :
  res (connect env ws r h hist) = Raise e ->
  let w := ws_endpoint env loads ws r incoming h hist in
  res w = Raise e /\
  hub_of w = hub_of (connect env ws r h hist) /\
  emitted w = emitted (connect env ws r h hist) /\
  (forall pid, EvSend ws (MsgLeave pid) ∉ emitted w) /\
  (accept_fails env hist ws = None ->
   players (hub_of w) !! id (new_player r) = Some (new_player r) /\
   sockets (hub_of w) !! id (new_player r) = Some ws).
Proof.
  intros He. cbv zeta. rewrite (ws_endpoint_raise env loads ws r incoming h hist e He).
  cbn [res hub_of emitted]. split; [reflexivity|]. split; [reflexivity|].
  split; [reflexivity|].
  revert He. rewrite (connect_run env ws r h hist).
  destruct (accept_fails env hist ws) as [e'|].
  - intros _. cbn [emitted]. split; [|discriminate].
    intros pid H. apply list_elem_of_singleton in H. discriminate.
  - match goal with |- context [send_fails env ?a ?b ?c] => destruct (send_fails env a b c) end;
      [|discriminate].
    intros _. cbn [hub_of emitted]. split.
    + intros pid H. apply connect_prefix_sends in H as [_ H]. discriminate.
    + intros _. split; apply lookup_insert_eq.
Qed.

Lemma ws_endpoint_connect_failure_witness :
  res (ws_endpoint env_no_welcome loads_example (Socket 1) rand_a
         [RecvRaise WebSocketDisconnect] Hub_init []) = Raise WebSocketDisconnect /\
  players (hub_of (ws_endpoint env_no_welcome loads_example (Socket 1) rand_a
                     [RecvRaise WebSocketDisconnect] Hub_init [])) !! "abcdef"%string
  = Some (new_player rand_a).
Proof.
  destruct (ws_endpoint_connect_failure env_no_welcome loads_example (Socket 1) rand_a
              [RecvRaise WebSocketDisconnect] Hub_init [] WebSocketDisconnect eq_refl)
    as (H1 & _ & _ & _ & H2).
  split; [exact H1|]. apply (H2 eq_refl).
Defined.

(** X24: a session touches no other id: whatever the transport does and
    whatever frames arrive (also forged ones that name another id), every
    other player, with its position and its input, and every other socket
    is after [ws_endpoint] as it was before. *)
Theorem ws_endpoint_non_interference (env : Env) (loads : string -> option pyval)
    (ws : WebSocket) (r : Rand) (incoming : list received) (h : Hub)
    (hist : list event) (q : string) :
  q <> id (new_player r) ->
  players (hub_of (ws_endpoint env loads ws r incoming h hist)) !! q = players h !! q /\
  sockets (hub_of (ws_endpoint env loads ws r incoming h hist)) !! q = sockets h !! q.
Proof.
  intros Hq. destruct (res (connect env ws r h hist)) as [pid|e] eqn:Hc.
  - destruct (ws_endpoint_run env loads ws r incoming h hist pid Hc) as (i & -> & H).
    cbv zeta in H.
    destruct (session_end loads incoming) as [e|]; [destruct (is_Exception e)|];
      destruct H as [_ ->]; cbn [removed set_players registered players sockets];
      rewrite ?lookup_insert_ne, ?lookup_delete_ne by congruence; auto.
  - rewrite (ws_endpoint_raise env loads ws r incoming h hist e Hc). cbn [hub_of].
    destruct (connect_hub env ws r h hist) as [->| ->]; [auto|].
    cbn [registered players sockets]. rewrite !lookup_insert_ne by congruence. auto.
Qed.

Lemma ws_endpoint_non_interference_witness :
  players (hub_of (ws_endpoint env_ok loads_example (Socket 2) rand_b
                     [RecvText "left"] hub_one [])) !! "abcdef"%string
  = players hub_one !! "abcdef"%string.
Proof.
  apply (ws_endpoint_non_interference env_ok loads_example (Socket 2) rand_b
           [RecvText "left"] hub_one [] "abcdef").
  discriminate.
Defined.

(** X25: while the session lasts (no frame has ended it), all that the frames
    of a client have changed in the hub is the four input flags of its own
    player: the hub is the one [connect] left, with some input stored for
    the new id. *)
Theorem ws_endpoint_steers_own_input (env : Env) (loads : string -> option pyval)
    (ws : WebSocket) (r : Rand) (incoming : list received) (h : Hub)
    (hist : list event) (pid : string) :
  res (connect env ws r h hist) = Ok pid ->
  session_end loads incoming = None ->
  res (ws_endpoint env loads ws r incoming h hist) = Ok tt /\
  exists i,
    hub_of (ws_endpoint env loads ws r incoming h hist)
    = set_players (registered ws r h)
        (<[pid := set_input (new_player r) i]> (players (registered ws r h))).
Proof.
  intros Hok Hend.
  destruct (ws_endpoint_run env loads ws r incoming h hist pid Hok) as (i & _ & H).
  cbv zeta in H. rewrite Hend in H. destruct H as [-> ->].
  split; [reflexivity|]. exists i. reflexivity.
Qed.

Lemma ws_endpoint_steers_own_input_witness :
  res (ws_endpoint env_ok loads_example (Socket 2) rand_b
         [RecvText "left"; RecvText "{"] hub_one []) = Ok tt.
Proof.
  apply (ws_endpoint_steers_own_input env_ok loads_example (Socket 2) rand_b
           [RecvText "left"; RecvText "{"] hub_one [] "hjlnpr"); reflexivity.
Defined.
